(** * RnT-TFE: movements of interest and frame readers

    A shallow embedding of [tss/camera/moi.py], [tss/io/video.py] and
    [tss/io/image.py], and the properties of the matching engine and of the
    frame readers that the specification states about them.

    Conventions.
    - Python [float] values (distances, angles, thresholds, box coordinates)
      are rationals [Q]; comparisons are the numeric ones.  Not-a-number
      and infinities are outside the model.
    - Python [int] is [Z]; [None] is [option]'s [None].
    - A raised exception is the [Raise] branch of [result].
    - Tracked objects are mutable and shared by reference: they live in a
      heap [gmap nat GMO], and a list of objects is a list of addresses.
    - Functions of other packages ([cv2], [glob]) and the helpers of
      [tss.ops] and [tss.utils] are Section variables. *)

From Stdlib Require Import ZArith QArith Qround Qabs Qminmax Bool Ascii String Lia.
From stdpp Require Import gmap list strings sorting.

Local Open Scope Z_scope.

(** ** Python preliminaries *)

Module Py.

Inductive exn :=
| ValueError
| TypeError
| AttributeError
| IndexError
| IOError
| FileNotFoundError
| StopIteration
| OtherError (name : string).

Inductive result (A : Type) :=
| Ok (a : A)
| Raise (e : exn).
Arguments Ok {A} a.
Arguments Raise {A} e.

#[export] Instance result_bind : MBind result := fun A B k r =>
  match r with
  | Ok a => k a
  | Raise e => Raise e
  end.

#[export] Instance result_ret : MRet result := fun A a => Ok a.

(** [a < b] and [a > b] on floats. *)
Definition Qltb (a b : Q) : bool := negb (Qle_bool b a).
Definition Qgtb (a b : Q) : bool := Qltb b a.

(** [int(x)] of a float: truncation toward zero. *)
Definition int_of_float (x : Q) : Z := Z.quot (Qnum x) (Zpos (Qden x)).

(** [l[i]] on a Python list, negative indices counting from the end. *)
Definition index {A} (l : list A) (i : Z) : result A :=
  let n := Z.of_nat (length l) in
  let j := if 0 <=? i then i else n + i in
  if (0 <=? j) && (j <? n) then
    match l !! Z.to_nat j with
    | Some a => Ok a
    | None => Raise IndexError
    end
  else Raise IndexError.

(** Truth value of an optional string: [None] and [""] are false. *)
Definition truthy (s : option string) : bool :=
  match s with
  | Some (String _ _) => true
  | _ => false
  end.

Definition startswith_sep (s : string) : bool :=
  match s with
  | String c _ => Ascii.eqb c "/"%char
  | EmptyString => false
  end.

Fixpoint endswith_sep (s : string) : bool :=
  match s with
  | EmptyString => false
  | String c EmptyString => Ascii.eqb c "/"%char
  | String _ s' => endswith_sep s'
  end.

(** [os.path.join(a, *p)] (posixpath). *)
Fixpoint os_path_join (a : string) (p : list string) : string :=
  match p with
  | [] => a
  | b :: p' =>
      let path :=
        if startswith_sep b then b
        else if (String.eqb a "") || endswith_sep a then (a ++ b)%string
        else (a ++ "/" ++ b)%string in
      os_path_join path p'
  end.

(** [enumerate(l)] *)
Definition enumerate {A} (l : list A) : list (nat * A) :=
  combine (seq 0 (length l)) l.

End Py.
Import Py.

(** ** [tss/camera/moi.py] *)

Module Moi.

(** [np.ndarray] of [np.int32] with two axes: a list of rows. *)
Definition ndarray := list (list Z).

(** An object's trajectory: an array of points. *)
Definition track := list (Q * Q).

Definition RGB := (Z * Z * Z)%type.

(** Bounding box [[x, y, x, y]]. *)
Record bbox := { x1 : Q; y1 : Q; x2 : Q; y2 : Q }.

Record MOI := {
  uuid               : option Z;
  points             : ndarray;
  shape_type         : option string;
  offset             : option Z;
  distance_threshold : Q;
  angle_threshold    : Q;
  color              : RGB;
  distance_function  : ndarray -> track -> Q
}.

(** The attributes of [tss.road_objects.GMO] that the matcher reads and
    writes. *)
Record GMO := {
  moi_uuid     : option Z;
  current_bbox : bbox;
  trajectory   : track
}.

Definition set_moi_uuid (o : GMO) (u : option Z) : GMO :=
  {| moi_uuid := u; current_bbox := current_bbox o; trajectory := trajectory o |}.

Section Matching.

(** [tss.ops.angle_between_arrays] *)
Variable angle_between_arrays : ndarray -> track -> Q.

(** [cv2.pointPolygonTest(contour, pt, measureDist)] *)
Variable pointPolygonTest : ndarray -> Q * Q -> bool -> Q.

Definition distances_with_track (self : MOI) (object_track : track) : option Q :=
  let distance := distance_function self (points self) object_track in
  if Qgtb distance (distance_threshold self) then None else Some distance.

Definition angles_with_track (self : MOI) (object_track : track) : option Q :=
  let angle := angle_between_arrays (points self) object_track in
  if Qgtb angle (angle_threshold self) then None else Some angle.

(** The MOI is a candidate for the track: neither test returns [None]. *)
Definition passes (m : MOI) (t : track) : Prop :=
  ~ (distance_threshold m < distance_function m (points m) t)%Q /\
  ~ (angle_threshold m < angle_between_arrays (points m) t)%Q.

Definition is_center_in_or_touch_moi
    (self : MOI) (bbox_xyxy : bbox) (compute_distance : bool) : Z :=
  let c_x := ((x1 bbox_xyxy + x2 bbox_xyxy) / 2)%Q in
  let c_y := ((y1 bbox_xyxy + y2 bbox_xyxy) / 2)%Q in
  int_of_float (pointPolygonTest (points self) (c_x, c_y) compute_distance).

Fixpoint find_moi_for_bbox (bbox_xyxy : bbox) (mois : list MOI) : option Z :=
  match mois with
  | [] => None
  | moi :: mois' =>
      if 0 <? is_center_in_or_touch_moi moi bbox_xyxy false
      then uuid moi
      else find_moi_for_bbox bbox_xyxy mois'
  end.

(** One turn of the second loop of [best_matched_moi]; the state is
    [(min_moi_uuid, min_distance)]. *)
Definition best_step (mois : list MOI)
    (st : option Z * option Q) (ida : nat * (option Q * option Q))
    : option Z * option Q :=
  let '(i, (d, a)) := ida in
  match d, a with
  | Some d, Some _ =>
      let skip :=
        match snd st with
        | Some min_distance => Qltb min_distance d
        | None => false
        end in
      if skip then st else (mois !! i ≫= uuid, Some d)
  | _, _ => st
  end.

Definition best_matched_moi (object_track : track) (mois : list MOI)
    : option Z * option Q :=
  let distances := map (fun moi => distances_with_track moi object_track) mois in
  let angles := map (fun moi => angles_with_track moi object_track) mois in
  fold_left (best_step mois) (enumerate (combine distances angles)) (None, None).

(** The same turn of the loop, for the MOI itself rather than its index. *)
Definition select_step (object_track : track)
    (st : option Z * option Q) (moi : MOI) : option Z * option Q :=
  best_step [moi] st
    (O, (distances_with_track moi object_track, angles_with_track moi object_track)).

Definition has_shape (s : string) (m : MOI) : bool :=
  match shape_type m with
  | Some t => String.eqb t s
  | None => false
  end.

(** The body of [for o in gmos: if o.moi_uuid is None: o.moi_uuid = f(o)],
    on the heap of objects. *)
Definition assign_if_none (f : GMO -> option Z) (h : gmap nat GMO) (a : nat)
    : gmap nat GMO :=
  match h !! a with
  | Some o =>
      match moi_uuid o with
      | None => <[a := set_moi_uuid o (f o)]> h
      | Some _ => h
      end
  | None => h
  end.

Definition associate_moving_objects_to_mois
    (h : gmap nat GMO) (gmos : list nat) (mois : list MOI) (shape : string)
    : gmap nat GMO :=
  if (Z.of_nat (length gmos) <=? 0) then h
  else
    let polygon_mois := List.filter (has_shape "polygon") mois in
    let linestrip_mois := List.filter (has_shape "linestrip") mois in
    if String.eqb shape "polygon" then
      fold_left
        (assign_if_none (fun o => find_moi_for_bbox (current_bbox o) polygon_mois))
        gmos h
    else if String.eqb shape "linestrip" then
      fold_left
        (assign_if_none (fun o => fst (best_matched_moi (trajectory o) linestrip_mois)))
        gmos h
    else h.

End Matching.

(** *** Construction and loading *)

(** What the caller may pass as [points]. *)
Inductive points_arg :=
| PointsNone
| PointsList (l : list (list Z))
| PointsArray (a : ndarray).

(** The keyword arguments of [MOI.__init__], defaults applied;
    [a_kwargs] are the names of the keywords caught by [**kwargs]. *)
Record init_args := {
  a_uuid               : option Z;
  a_points             : points_arg;
  a_shape_type         : option string;
  a_offset             : option Z;
  a_distance_function  : string;
  a_distance_threshold : Q;
  a_angle_threshold    : Q;
  a_color              : option RGB;
  a_kwargs             : list string
}.

Definition wrap_int32 (z : Z) : Z := (z + 2 ^ 31) mod 2 ^ 32 - 2 ^ 31.

(** [np.array(points, np.int32)] of a list of rows: rows of unequal
    length are refused, an integer beyond the C [long] overflows, any
    other is cast to 32 bits. *)
Definition np_array_int32 (l : list (list Z)) : result ndarray :=
  match l with
  | [] => Ok []
  | r :: rs =>
      if negb (forallb (fun r' => Nat.eqb (length r') (length r)) rs)
      then Raise ValueError
      else if negb (forallb (forallb (fun z => (- 2 ^ 63 <=? z) && (z <? 2 ^ 63))) l)
      then Raise (OtherError "OverflowError")
      else Ok (map (map wrap_int32) l)
  end.

(** The [points] setter: the value of [self._points] afterwards, [None]
    when the attribute was not set. *)
Definition points_setter (p : points_arg) : result (option ndarray) :=
  match p with
  | PointsList l => a ← np_array_int32 l; Ok (Some a)
  | PointsArray a => Ok (Some a)
  | PointsNone => Ok None
  end.

Section Loading.

(** [tss.ops.AppleRGB]: the value of [WHITE] and the list [values()]. *)
Variable AppleRGB_WHITE : RGB.
Variable AppleRGB_values : list RGB.

(** [tss.ops.get_distance_function] *)
Variable get_distance_function : string -> result (ndarray -> track -> Q).

(** [tss.utils]: [data_dir], [is_json_file], and [parse_config_from_json]
    followed by the lookup of the key [moi]. *)
Variable data_dir : string.
Variable is_json_file : string -> bool.
Variable parse_config_from_json : string -> result (list init_args).

Definition init (args : init_args) : result MOI :=
  match a_kwargs args with
  | _ :: _ => Raise TypeError
  | [] =>
      _points ← points_setter (a_points args);
      color ←
        match a_uuid args with
        | None => Ok AppleRGB_WHITE
        | Some u =>
            match a_color args with
            | Some c => Ok c
            | None => index AppleRGB_values u
            end
        end;
      distance_function ← get_distance_function (a_distance_function args);
      match _points with
      | None => Raise AttributeError
      | Some pts =>
          if negb (forallb (fun track => 2 <=? Z.of_nat (length track)) pts)
          then Raise ValueError
          else Ok {| uuid               := a_uuid args;
                     points             := pts;
                     shape_type         := a_shape_type args;
                     offset             := a_offset args;
                     distance_threshold := a_distance_threshold args;
                     angle_threshold    := a_angle_threshold args;
                     color              := color;
                     distance_function  := distance_function |}
      end
  end.

Definition add_kwargs (kwargs : list string) (args : init_args) : init_args :=
  {| a_uuid               := a_uuid args;
     a_points             := a_points args;
     a_shape_type         := a_shape_type args;
     a_offset             := a_offset args;
     a_distance_function  := a_distance_function args;
     a_distance_threshold := a_distance_threshold args;
     a_angle_threshold    := a_angle_threshold args;
     a_color              := a_color args;
     a_kwargs             := (a_kwargs args ++ kwargs)%list |}.

(** The loop [for moi_data in mois_data: mois.append(cls(...))];
    [calls] counts the calls of the constructor. *)
Fixpoint load_loop (kwargs : list string) (mois_data : list init_args)
    (mois : list MOI) (calls : nat) : nat * result (list MOI) :=
  match mois_data with
  | [] => (calls, Ok mois)
  | moi_data :: rest =>
      match init (add_kwargs kwargs moi_data) with
      | Ok m => load_loop kwargs rest (mois ++ [m])%list (S calls)
      | Raise e => (S calls, Raise e)
      end
  end.

(** The [path] that [load_mois_from_file] looks at. *)
Definition mois_path (file : string) (dataset : option string) : string :=
  match dataset with
  | Some (String c ds) => os_path_join data_dir [String c ds; "rmois"; file]
  | _ => os_path_join data_dir ["rmois"; file]
  end.

(** Returns the number of constructor calls made and the outcome. *)
Definition load_mois_from_file
    (file : string) (dataset : option string) (kwargs : list string)
    : nat * result (list MOI) :=
  let path := mois_path file dataset in
  if negb (is_json_file path) then (O, Raise FileNotFoundError)
  else
    match parse_config_from_json path with
    | Raise e => (O, Raise e)
    | Ok mois_data => load_loop kwargs mois_data [] O
    end.

End Loading.

End Moi.

(** ** [tss/io/video.py] *)

Module Video.

Section Reader.

(** A decoded image. *)
Variable frame : Type.

(** [cv2.VideoCapture]: the frames still to be read, and the two
    properties the reader gets and sets. *)
Record VideoCapture := {
  cap_frames      : list frame;
  cap_frame_count : Q;
  cap_buffersize  : option Z
}.

(** [cap.read()]: [(ret_val, image)], and the capture afterwards. *)
Definition cap_read (c : VideoCapture) : bool * option frame * VideoCapture :=
  match cap_frames c with
  | [] => (false, None, c)
  | f :: fs =>
      (true, Some f,
       {| cap_frames := fs;
          cap_frame_count := cap_frame_count c;
          cap_buffersize := cap_buffersize c |})
  end.

(** [cap.set(cv2.CAP_PROP_BUFFERSIZE, n)] *)
Definition cap_set_buffersize (c : VideoCapture) (n : Z) : VideoCapture :=
  {| cap_frames := cap_frames c;
     cap_frame_count := cap_frame_count c;
     cap_buffersize := Some n |}.

(** [tss.utils] and [cv2.VideoCapture(path)]. *)
Variable data_dir : string.
Variable is_video_file : string -> bool.
Variable is_video_stream : string -> bool.
Variable cv2_VideoCapture : string -> VideoCapture.

(** A reader that [__init__] returned: [cap] is not [None]. *)
Record VideoReader := {
  dataset    : option string;
  file       : option string;
  stream     : option string;
  dims       : Z * Z * Z;
  frame_rate : Q;
  batch_size : Z;
  cap        : VideoCapture;
  num_frames : Z;
  frame_idx  : Z
}.

Definition set_frame_idx (r : VideoReader) (i : Z) : VideoReader :=
  {| dataset := dataset r; file := file r; stream := stream r;
     dims := dims r; frame_rate := frame_rate r; batch_size := batch_size r;
     cap := cap r; num_frames := num_frames r; frame_idx := i |}.

Definition set_cap (r : VideoReader) (c : VideoCapture) : VideoReader :=
  {| dataset := dataset r; file := file r; stream := stream r;
     dims := dims r; frame_rate := frame_rate r; batch_size := batch_size r;
     cap := c; num_frames := num_frames r; frame_idx := frame_idx r |}.

(** The capture [create_online_stream] stores; [num_frames] is left as
    it is. *)
Definition create_online_stream (stream : string) (batch_size : Z)
    : result VideoCapture :=
  if is_video_stream stream
  then Ok (cap_set_buffersize (cv2_VideoCapture stream) batch_size)
  else Raise FileNotFoundError.

(** The capture and the [num_frames] that [create_video_stream] stores. *)
Definition create_video_stream (dataset : option string) (file : string)
    : result (VideoCapture * Z) :=
  match dataset with
  | None => Raise TypeError
  | Some ds =>
      let video_file := os_path_join data_dir [ds; "video"; file] in
      if is_video_file video_file
      then
        let c := cv2_VideoCapture video_file in
        Ok (c, int_of_float (cap_frame_count c))
      else Raise FileNotFoundError
  end.

Definition init (dataset file stream : option string) (dims : Z * Z * Z)
    (frame_rate : Q) (batch_size : Z) : result VideoReader :=
  match stream, file with
  | Some (String a s), _ =>
      c ← create_online_stream (String a s) batch_size;
      Ok {| dataset := dataset; file := file; stream := stream;
            dims := dims; frame_rate := frame_rate; batch_size := batch_size;
            cap := c; num_frames := -1; frame_idx := 0 |}
  | _, Some (String a f) =>
      cn ← create_video_stream dataset (String a f);
      Ok {| dataset := dataset; file := file; stream := stream;
            dims := dims; frame_rate := frame_rate; batch_size := batch_size;
            cap := fst cn; num_frames := snd cn; frame_idx := 0 |}
  | _, _ => Raise IOError
  end.

Definition len (r : VideoReader) : Z := num_frames r.

Definition iter (r : VideoReader) : VideoReader := set_frame_idx r 0.

(** The loop [for i in range(self.batch_size)] with [n] turns left. *)
Fixpoint next_loop (n : nat) (r : VideoReader)
    (frame_indexes : list Z) (images : list (option frame))
    : VideoReader * (list Z * list (option frame)) :=
  match n with
  | O => (r, (frame_indexes, images))
  | S n' =>
      let r := set_frame_idx r (frame_idx r + 1) in
      if num_frames r <=? frame_idx r then (r, (frame_indexes, images))
      else
        let '(_, image, c) := cap_read (cap r) in
        next_loop n' (set_cap r c)
          (frame_indexes ++ [frame_idx r])%list (images ++ [image])%list
  end.

(** [__next__]: the reader afterwards and the batch or [StopIteration]. *)
Definition next (r : VideoReader)
    : VideoReader * result (list Z * list (option frame)) :=
  if num_frames r <=? frame_idx r then (r, Raise StopIteration)
  else
    let '(r', batch) := next_loop (Z.to_nat (batch_size r)) r [] [] in
    (r', Ok batch).

(** The batches of at most [calls] successive calls of [__next__], up
    to the first exception. *)
Fixpoint batches (calls : nat) (r : VideoReader)
    : list (list Z * list (option frame)) :=
  match calls with
  | O => []
  | S calls' =>
      match next r with
      | (r', Ok batch) => batch :: batches calls' r'
      | (_, Raise _) => []
      end
  end.

End Reader.

End Video.

(** ** [tss/io/image.py] *)

Module Image.

Section Reader.

(** What [cv2.imread] returns. *)
Variable image : Type.

Variable glob_glob : string -> list string.
Variable is_image_file : string -> bool.
Variable cv2_imread : string -> image.

(** [frame_idx] is [None] until [__iter__] sets the attribute. *)
Record ImageReader := {
  images          : list string;
  number_of_frame : Z;
  batch_size      : Z;
  frame_idx       : option Z
}.

Definition set_frame_idx (r : ImageReader) (i : Z) : ImageReader :=
  {| images := images r; number_of_frame := number_of_frame r;
     batch_size := batch_size r; frame_idx := Some i |}.

Definition init (filename dirname : option string) (batch_size : Z)
    : result ImageReader :=
  match dirname with
  | Some d =>
      let images := List.filter is_image_file (glob_glob (os_path_join d ["*"])) in
      Ok {| images := images;
            number_of_frame := Z.of_nat (length images);
            batch_size := batch_size;
            frame_idx := None |}
  | None =>
      match filename with
      | Some _ => Raise TypeError
      | None => Raise IOError
      end
  end.

Definition iter (r : ImageReader) : ImageReader := set_frame_idx r 0.

(** The loop [for _ in range(self.batch_size)] with [n] turns left;
    [reads] lists the indices used on [self.images] so far. *)
Fixpoint next_loop (n : nat) (r : ImageReader)
    (imgs : list image) (frame_ids : list Z) (reads : list Z)
    : ImageReader * list Z * result (list image * list Z) :=
  match n with
  | O => (r, reads, Ok (imgs, frame_ids))
  | S n' =>
      match frame_idx r with
      | None => (r, reads, Raise AttributeError)
      | Some i =>
          if i <? number_of_frame r then
            let r := set_frame_idx r (i + 1) in
            let frame_ids := (frame_ids ++ [i + 1])%list in
            let reads := (reads ++ [i + 1])%list in
            match index (images r) (i + 1) with
            | Ok path => next_loop n' r (imgs ++ [cv2_imread path])%list frame_ids reads
            | Raise e => (r, reads, Raise e)
            end
          else next_loop n' r imgs frame_ids reads
      end
  end.

(** [__next__]: the reader afterwards, the indices it used on
    [self.images], and the batch or the exception. *)
Definition next (r : ImageReader)
    : ImageReader * list Z * result (list image * list Z) :=
  next_loop (Z.to_nat (batch_size r)) r [] [] [].

(** At most [calls] successive calls of [__next__]: every index used on
    [self.images], and the exception that ended the iteration, if any. *)
Fixpoint iterate (calls : nat) (r : ImageReader) : list Z * option exn :=
  match calls with
  | O => ([], None)
  | S calls' =>
      match next r with
      | (r', reads, Ok _) =>
          let '(reads', e) := iterate calls' r' in ((reads ++ reads')%list, e)
      | (_, reads, Raise e) => (reads, Some e)
      end
  end.

End Reader.

End Image.

(** ** Sample collaborators

    Concrete stand-ins for the functions of other packages, used to run
    the model on examples. *)

Module Samples.

Import Moi.

Definition row_point (r : list Z) : Q * Q :=
  match r with
  | x :: y :: _ => (inject_Z x, inject_Z y)
  | _ => (0, 0)%Q
  end.

Definition cityblock (p q : Q * Q) : Q :=
  (Qabs (fst p - fst q) + Qabs (snd p - snd q))%Q.

Definition nearest (p : Q * Q) (l : list (Q * Q)) : Q :=
  match l with
  | [] => 0%Q
  | q :: l' => fold_left (fun m q' => Qmin m (cityblock p q')) l' (cityblock p q)
  end.

Definition directed (a b : list (Q * Q)) : Q :=
  fold_left (fun m p => Qmax m (nearest p b)) a 0%Q.

(** The discrete Hausdorff distance under the city-block point metric
    (equal to the Euclidean one between points that differ in one
    coordinate only). *)
Definition hausdorff (pts : ndarray) (t : track) : Q :=
  let a := map row_point pts in
  Qmax (directed a t) (directed t a).

Definition direction (l : list (Q * Q)) : Q * Q :=
  match l, last l with
  | p :: _, Some q => (fst q - fst p, snd q - snd p)%Q
  | _, _ => (0, 0)%Q
  end.

(** The angle in degrees between the directions of two paths, exact for
    parallel and opposite directions and [90] for any other. *)
Definition coarse_angle (pts : ndarray) (t : track) : Q :=
  let u := direction (map row_point pts) in
  let v := direction t in
  let cross := (fst u * snd v - snd u * fst v)%Q in
  let dot := (fst u * fst v + snd u * snd v)%Q in
  if Qeq_bool cross 0 then (if Qltb dot 0 then 180 else 0)%Q else 90%Q.

(** The closed polygon's edges. *)
Definition edges (poly : list (Q * Q)) : list ((Q * Q) * (Q * Q)) :=
  match poly with
  | [] => []
  | p :: rest => combine poly (rest ++ [p])%list
  end.

Definition on_edge (pt : Q * Q) (e : (Q * Q) * (Q * Q)) : bool :=
  let '((ax, ay), (bx, by_)) := e in
  let '(px, py) := pt in
  Qeq_bool ((bx - ax) * (py - ay) - (by_ - ay) * (px - ax)) 0
  && Qle_bool (Qmin ax bx) px && Qle_bool px (Qmax ax bx)
  && Qle_bool (Qmin ay by_) py && Qle_bool py (Qmax ay by_).

Definition crosses (pt : Q * Q) (e : (Q * Q) * (Q * Q)) : bool :=
  let '((ax, ay), (bx, by_)) := e in
  let '(px, py) := pt in
  negb (Bool.eqb (Qltb py ay) (Qltb py by_))
  && Qltb px ((bx - ax) * (py - ay) / (by_ - ay) + ax).

(** [cv2.pointPolygonTest] with [measureDist = False], by ray casting:
    [+1] inside, [0] on an edge, [-1] outside. *)
Definition crossing_test (contour : ndarray) (pt : Q * Q) (measureDist : bool) : Q :=
  let es := edges (map row_point contour) in
  if existsb (on_edge pt) es then 0%Q
  else if Nat.odd (length (List.filter (crosses pt) es)) then 1%Q
  else (-1)%Q.

Definition AppleRGB_WHITE : RGB := (255, 255, 255).
Definition AppleRGB_values : list RGB :=
  [(255, 59, 48); (255, 149, 0); (255, 204, 0); (52, 199, 89); (0, 122, 255)].

Definition get_distance_function (name : string)
    : result (ndarray -> track -> Q) :=
  if String.eqb name "hausdorff" then Ok hausdorff
  else Raise (OtherError "unknown distance function").

Definition linestrip (u : Z) (pts : ndarray) : MOI :=
  {| uuid := Some u; points := pts; shape_type := Some "linestrip";
     offset := None; distance_threshold := 300; angle_threshold := 45;
     color := AppleRGB_WHITE; distance_function := hausdorff |}.

Definition polygon (u : Z) (pts : ndarray) : MOI :=
  {| uuid := Some u; points := pts; shape_type := Some "polygon";
     offset := None; distance_threshold := 300; angle_threshold := 45;
     color := AppleRGB_WHITE; distance_function := hausdorff |}.

(** Two paths one unit above and one unit below the axis, and a track
    along the axis. *)
Definition upper : MOI := linestrip 1 [[0; 1]; [10; 1]].
Definition lower : MOI := linestrip 2 [[0; -1]; [10; -1]].
Definition far_path : MOI := linestrip 3 [[0; 500]; [10; 500]].
Definition axis_track : track := [(0, 0); (10, 0)]%Q.

Definition square : MOI := polygon 1 [[0; 0]; [10; 0]; [10; 10]; [0; 10]].
Definition box_inside : bbox := {| x1 := 2; y1 := 2; x2 := 6; y2 := 8 |}.
Definition box_on_edge : bbox := {| x1 := -2; y1 := 4; x2 := 2; y2 := 6 |}.
Definition box_outside : bbox := {| x1 := 20; y1 := 20; x2 := 30; y2 := 30 |}.

(** A path two units above the axis. *)
Definition near_path : MOI := linestrip 4 [[0; 2]; [10; 2]].

(** A heap of one object without a MOI, its box inside [square]. *)
Definition heap_inside : gmap nat GMO :=
  <[5%nat := {| moi_uuid := None; current_bbox := box_inside; trajectory := axis_track |}]> ∅.

(** A heap of two objects, the first one already assigned. *)
Definition heap_two : gmap nat GMO :=
  <[1%nat := {| moi_uuid := Some 7; current_bbox := box_inside; trajectory := axis_track |}]>
  (<[2%nat := {| moi_uuid := None; current_bbox := box_outside; trajectory := axis_track |}]> ∅).

(** A record of the configuration with a single point. *)
Definition one_point_args : init_args :=
  {| a_uuid := Some 1; a_points := PointsList [[5; 5]];
     a_shape_type := Some "linestrip"; a_offset := None;
     a_distance_function := "hausdorff";
     a_distance_threshold := 300; a_angle_threshold := 45;
     a_color := None; a_kwargs := [] |}.

Definition two_point_args : init_args :=
  {| a_uuid := Some 1; a_points := PointsList [[0; 0]; [100; 0]];
     a_shape_type := Some "linestrip"; a_offset := None;
     a_distance_function := "hausdorff";
     a_distance_threshold := 300; a_angle_threshold := 45;
     a_color := None; a_kwargs := [] |}.

(** Records with a row of one entry, with no points, and with a uuid
    beyond the palette. *)
Definition short_row_args : init_args :=
  {| a_uuid := Some 2; a_points := PointsList [[5]; [6]];
     a_shape_type := Some "linestrip"; a_offset := None;
     a_distance_function := "hausdorff";
     a_distance_threshold := 300; a_angle_threshold := 45;
     a_color := None; a_kwargs := [] |}.

Definition no_points_args : init_args :=
  {| a_uuid := None; a_points := PointsNone;
     a_shape_type := Some "linestrip"; a_offset := None;
     a_distance_function := "hausdorff";
     a_distance_threshold := 300; a_angle_threshold := 45;
     a_color := None; a_kwargs := [] |}.

Definition uuid_9_args : init_args :=
  {| a_uuid := Some 9; a_points := PointsList [[0; 0]; [100; 0]];
     a_shape_type := Some "linestrip"; a_offset := None;
     a_distance_function := "hausdorff";
     a_distance_threshold := 300; a_angle_threshold := 45;
     a_color := None; a_kwargs := [] |}.

(** A configuration whose second record is [short_row_args]. *)
Definition parse_second_short (path : string) : result (list init_args) :=
  Ok [two_point_args; short_row_args; two_point_args].

(** A data directory that holds one configuration, [cam_1.json]. *)
Definition data_dir : string := "/data".
Definition is_json_file (path : string) : bool :=
  String.eqb path "/data/aicity2021/rmois/cam_1.json".
Definition parse_config_from_json (path : string) : result (list init_args) :=
  Ok [two_point_args].

(** Captures of five frames, named by numbers; streams are [rtsp] URLs. *)
Definition capture_of (path : string) : Video.VideoCapture nat :=
  {| Video.cap_frames := [10; 11; 12; 13; 14]%nat;
     Video.cap_frame_count := 5;
     Video.cap_buffersize := None |}.
Definition is_video_file (path : string) : bool :=
  String.eqb path "/data/aicity2021/video/cam_1.mp4".
Definition is_video_stream (stream : string) : bool :=
  String.prefix "rtsp://" stream.

Definition offline_reader : Video.VideoReader nat :=
  {| Video.dataset := Some "aicity2021"; Video.file := Some "cam_1.mp4";
     Video.stream := None; Video.dims := (3, 1920, 1080);
     Video.frame_rate := 10; Video.batch_size := 2;
     Video.cap := capture_of "/data/aicity2021/video/cam_1.mp4";
     Video.num_frames := 5; Video.frame_idx := 0 |}.

(** The same reader with a batch size of zero. *)
Definition stuck_reader : Video.VideoReader nat :=
  {| Video.dataset := Some "aicity2021"; Video.file := Some "cam_1.mp4";
     Video.stream := None; Video.dims := (3, 1920, 1080);
     Video.frame_rate := 10; Video.batch_size := 0;
     Video.cap := capture_of "/data/aicity2021/video/cam_1.mp4";
     Video.num_frames := 5; Video.frame_idx := 0 |}.

(** A folder of two images and one other file; an image is its name. *)
Definition glob_glob (pattern : string) : list string :=
  ["/imgs/a.jpg"; "/imgs/b.jpg"; "/imgs/notes.txt"].
Definition is_image_file (path : string) : bool :=
  String.eqb path "/imgs/a.jpg" || String.eqb path "/imgs/b.jpg".
Definition cv2_imread (path : string) : string := path.

End Samples.

(** ** [tss/io/image.py]: the writer *)

Module ImageOut.

(** [s.replace(a, b)] for one-character [a] and [b]. *)
Fixpoint replace_char (a b : ascii) (s : string) : string :=
  match s with
  | EmptyString => EmptyString
  | String c s' => String (if Ascii.eqb c a then b else c) (replace_char a b s')
  end.

(** [s.split(sep)] for a one-character [sep]. *)
Fixpoint split_char (sep : ascii) (s : string) : list string :=
  match s with
  | EmptyString => [EmptyString]
  | String c s' =>
      if Ascii.eqb c sep then EmptyString :: split_char sep s'
      else
        match split_char sep s' with
        | h :: t => String c h :: t
        | [] => [String c EmptyString]
        end
  end.

Record ImageWriter := {
  output_dir : string;
  extension  : string;
  image_name : string;
  frame_idx  : Z
}.

Definition init (output_dir extension : string) (kwargs : list string)
    : result ImageWriter :=
  match kwargs with
  | _ :: _ => Raise TypeError
  | [] =>
      image_name ← index (split_char "/" (replace_char "\" "/" output_dir)) (-1);
      Ok {| output_dir := output_dir; extension := extension;
            image_name := image_name; frame_idx := 0 |}
  end.

Definition len (w : ImageWriter) : Z := frame_idx w.

Section Writer.

Variable image : Type.

(** [tss.ops.is_channel_last], [tss.ops.image_channel_last] and
    [cv2.imwrite], called with the arguments in the order of the source;
    each may raise. *)
Variable is_channel_last : image -> result bool.
Variable image_channel_last : image -> result image.
Variable cv2_imwrite : image -> string -> result unit.

(** The body of the loop of [write_frame] up to the increment: the
    call of [cv2.imwrite] made, or the exception. *)
Definition write_one (w : ImageWriter) (img : image) : result (image * string) :=
  let path := os_path_join (output_dir w) [(image_name w ++ extension w)%string] in
  last ← is_channel_last img;
  if last : bool then
    _ ← cv2_imwrite img path; Ok (img, path)
  else
    img' ← image_channel_last img;
    _ ← cv2_imwrite img' path; Ok (img', path).

(** [write_frame]: the writer afterwards, the calls of [cv2.imwrite]
    that returned, and the boolean returned. *)
Fixpoint write_frame (w : ImageWriter) (images : list image)
    : ImageWriter * list (image * string) * bool :=
  match images with
  | [] => (w, [], true)
  | img :: rest =>
      match write_one w img with
      | Raise _ => (w, [], false)
      | Ok call =>
          let w := {| output_dir := output_dir w; extension := extension w;
                      image_name := image_name w; frame_idx := frame_idx w + 1 |} in
          let '(w', calls, ok) := write_frame w rest in
          (w', call :: calls, ok)
      end
  end.

End Writer.

End ImageOut.

(** ** [tss/ops/label.py] *)

Module Label.

(** An attribute of a label dict: [None] when the key is absent,
    [Some None] when its value is [None]. *)
Definition attr (A : Type) := option (option A).

(** A label: the three keys the functions read, and the other entries. *)
Record label := {
  name     : attr string;
  id       : attr Z;
  train_id : attr Z;
  others   : list (string * string)
}.

(** [(x is not None) and hasattr(label, key) and (x == label.key)] *)
Definition same {A} (eqb : A -> A -> bool) (x : option A) (a : attr A) : bool :=
  match x, a with
  | Some v, Some (Some v') => eqb v v'
  | _, _ => false
  end.

Fixpoint get_label (labels : list label)
    (name_ : option string) (id_ train_id_ : option Z) : option label :=
  match labels with
  | [] => None
  | l :: rest =>
      if same String.eqb name_ (name l) then Some l
      else if same Z.eqb id_ (id l) then Some l
      else if same Z.eqb train_id_ (train_id l) then Some l
      else get_label rest name_ id_ train_id_
  end.

(** A dict in insertion order, with the keys of [label.id]. *)
Definition dict (V : Type) := list (option Z * V).

Definition key_eqb (a b : option Z) : bool :=
  match a, b with
  | Some x, Some y => Z.eqb x y
  | None, None => true
  | _, _ => false
  end.

Fixpoint dict_get {V} (d : dict V) (k : option Z) : option V :=
  match d with
  | [] => None
  | (k', v) :: d' => if key_eqb k' k then Some v else dict_get d' k
  end.

(** [d[k] = v]: in place when the key is there, at the end otherwise. *)
Fixpoint dict_set {V} (d : dict V) (k : option Z) (v : V) : dict V :=
  match d with
  | [] => [(k, v)]
  | (k', v') :: d' =>
      if key_eqb k' k then (k', v) :: d' else (k', v') :: dict_set d' k v
  end.

(** One turn of the counting loop; the state is
    [(unique_labels, label_voting)]. *)
Definition vote (st : dict label * dict Z) (l : label)
    : result (dict label * dict Z) :=
  let '(unique_labels, label_voting) := st in
  match id l with
  | None => Raise AttributeError
  | Some key =>
      let bump :=
        match dict_get label_voting key with
        | Some value => if value =? 0 then None else Some value
        | None => None
        end in
      match bump with
      | Some value => Ok (unique_labels, dict_set label_voting key (value + 1))
      | None => Ok (dict_set unique_labels key l, dict_set label_voting key 1)
      end
  end.

Fixpoint votes (st : dict label * dict Z) (object_labels : list label)
    : result (dict label * dict Z) :=
  match object_labels with
  | [] => Ok st
  | l :: rest => st' ← vote st l; votes st' rest
  end.

(** [max(keys, key=f)] after the first key: a later key replaces the
    best one only when its value is strictly greater. *)
Fixpoint max_from (f : option Z -> Z) (best : option Z) (rest : list (option Z))
    : option Z :=
  match rest with
  | [] => best
  | k :: rest' => max_from f (if f best <? f k then k else best) rest'
  end.

(** [max(d, key=d.get)]; [d.get(k)] is the value of a key of [d]. *)
Definition max_key (d : dict Z) : result (option Z) :=
  match map fst d with
  | [] => Raise ValueError
  | k :: ks => Ok (max_from (fun k => default 0 (dict_get d k)) k ks)
  end.

Definition get_majority_label (object_labels : list label) : result label :=
  st ← votes ([], []) object_labels;
  max_id ← max_key (snd st);
  match dict_get (fst st) max_id with
  | Some l => Ok l
  | None => Raise (OtherError "KeyError")
  end.

(** The number of labels of a list whose [id] is [k]. *)
Definition count_id (k : option Z) (ls : list label) : nat :=
  length (List.filter (fun l => match id l with Some k' => key_eqb k' k | None => false end) ls).

End Label.

(** ** Sample labels *)

Module LabelSamples.

(** Labels with a name and an id, and one without an id. *)
Definition lab (n : string) (i : Z) : Label.label :=
  {| Label.name := Some (Some n); Label.id := Some (Some i);
     Label.train_id := None; Label.others := [] |}.
Definition lab_no_id (n : string) : Label.label :=
  {| Label.name := Some (Some n); Label.id := None;
     Label.train_id := None; Label.others := [] |}.

End LabelSamples.

(** * Properties *)

(** ** Comparisons of floats *)

Lemma Qltb_lt (a b : Q) : Qltb a b = true <-> (a < b)%Q.
Proof.
  unfold Qltb. rewrite negb_true_iff, <- not_true_iff_false, Qle_bool_iff.
  split; [apply Qnot_le_lt | apply Qlt_not_le].
Qed.

Lemma Qltb_ge (a b : Q) : Qltb a b = false <-> (b <= a)%Q.
Proof.
  unfold Qltb. rewrite negb_false_iff. apply Qle_bool_iff.
Qed.

(** ** The matcher *)

Module MoiFacts.

Import Moi.

Section Matching.

Variable angle_between_arrays : ndarray -> track -> Q.
Variable pointPolygonTest : ndarray -> Q * Q -> bool -> Q.

Local Abbreviation dist m t := (distance_function m (points m) t).
Local Abbreviation passes := (Moi.passes angle_between_arrays).
Local Abbreviation select_step := (Moi.select_step angle_between_arrays).
Local Abbreviation best_matched_moi := (Moi.best_matched_moi angle_between_arrays).
Local Abbreviation touch m b := (is_center_in_or_touch_moi pointPolygonTest m b false).
Local Abbreviation find_moi_for_bbox := (Moi.find_moi_for_bbox pointPolygonTest).
Local Abbreviation associate := (associate_moving_objects_to_mois angle_between_arrays pointPolygonTest).

(** *** The two threshold tests *)

Lemma distances_with_track_Some (m : MOI) (t : track) (d : Q) :
  distances_with_track m t = Some d <->
  d = dist m t /\ ~ (distance_threshold m < dist m t)%Q.
Proof.
  unfold distances_with_track, Qgtb.
  destruct (Qltb (distance_threshold m) (dist m t)) eqn:E.
  - apply Qltb_lt in E. split; [discriminate | tauto].
  - apply Qltb_ge in E. split.
    + intros [= <-]. split; [reflexivity | now apply Qle_not_lt].
    + intros [-> _]. reflexivity.
Qed.

Lemma angles_with_track_Some (m : MOI) (t : track) :
  is_Some (angles_with_track angle_between_arrays m t) <->
  ~ (angle_threshold m < angle_between_arrays (points m) t)%Q.
Proof.
  unfold angles_with_track, Qgtb.
  destruct (Qltb _ _) eqn:E.
  - apply Qltb_lt in E. split; [intros [? ?]; discriminate | tauto].
  - apply Qltb_ge in E. split; [intros _; now apply Qle_not_lt | eauto].
Qed.

(** A turn of the loop for a MOI that is no candidate changes nothing;
    for a candidate it keeps the state only when the running minimum is
    strictly smaller. *)
Lemma select_step_fails (t : track) st (m : MOI) :
  ~ passes m t -> select_step t st m = st.
Proof.
  intros Hn. unfold Moi.select_step, best_step.
  destruct (distances_with_track m t) as [d|] eqn:Ed; [|reflexivity].
  destruct (angles_with_track _ m t) as [a|] eqn:Ea; [|reflexivity].
  exfalso. apply Hn. split.
  - now apply distances_with_track_Some in Ed.
  - apply angles_with_track_Some. rewrite Ea. eauto.
Qed.

Lemma select_step_passes (t : track) st (m : MOI) :
  passes m t ->
  select_step t st m =
    match snd st with
    | Some min_distance =>
        if Qltb min_distance (dist m t) then st else (uuid m, Some (dist m t))
    | None => (uuid m, Some (dist m t))
    end.
Proof.
  intros [Hd Ha]. unfold Moi.select_step, best_step.
  assert (Ed : distances_with_track m t = Some (dist m t))
    by now apply distances_with_track_Some.
  apply angles_with_track_Some in Ha as [a Ea].
  rewrite Ed, Ea. simpl. now destruct (snd st).
Qed.

(** The loop over indices is the loop over the MOIs. *)
Lemma best_step_at (pre l : list MOI) (m : MOI) st d a :
  best_step (pre ++ m :: l) st (length pre, (d, a)) = best_step [m] st (O, (d, a)).
Proof.
  unfold best_step. replace ((pre ++ m :: l) !! length pre) with (Some m).
  - reflexivity.
  - symmetry. apply list_lookup_middle. reflexivity.
Qed.

Lemma best_loop_select (t : track) (l pre : list MOI) st :
  fold_left (best_step (pre ++ l))
    (combine (seq (length pre) (length l))
       (combine (map (fun moi => distances_with_track moi t) l)
                (map (fun moi => angles_with_track angle_between_arrays moi t) l)))
    st
  = fold_left (select_step t) l st.
Proof.
  revert pre st. induction l as [|m l IH]; intros pre st; [reflexivity|].
  cbn [fold_left combine seq map length]. rewrite best_step_at.
  replace (pre ++ m :: l) with ((pre ++ [m]) ++ l) by now rewrite <- app_assoc.
  replace (S (length pre)) with (length (pre ++ [m]))
    by (rewrite length_app; simpl; lia).
  apply IH.
Qed.

Lemma best_matched_moi_select (t : track) (mois : list MOI) :
  best_matched_moi t mois = fold_left (select_step t) mois (None, None).
Proof.
  unfold Moi.best_matched_moi, enumerate.
  rewrite length_combine, !length_map, Nat.min_id.
  apply (best_loop_select t mois []).
Qed.

(** *** The running minimum *)

Lemma passes_dec (m : MOI) (t : track) : {passes m t} + {~ passes m t}.
Proof.
  unfold Moi.passes.
  destruct (Qlt_le_dec (distance_threshold m) (dist m t)) as [Hd|Hd];
    [right; tauto|].
  destruct (Qlt_le_dec (angle_threshold m) (angle_between_arrays (points m) t))
    as [Ha|Ha]; [right; tauto|].
  left. split; now apply Qle_not_lt.
Qed.

(** After the loop the state is the uuid and the distance of a candidate
    of least distance, or the initial state when there is no candidate. *)
Lemma select_minimum (t : track) (mois : list MOI) :
  let st := fold_left (select_step t) mois (None, None) in
  (exists m, In m mois /\ passes m t /\ st = (uuid m, Some (dist m t)) /\
     forall m', In m' mois -> passes m' t -> (dist m t <= dist m' t)%Q)
  \/ (st = (None, None) /\ forall m, In m mois -> ~ passes m t).
Proof.
  induction mois as [|x l IH] using rev_ind; simpl.
  - right. split; [reflexivity | intros m []].
  - rewrite fold_left_app. simpl in *.
    destruct (passes_dec x t) as [Hx|Hx].
    + rewrite (select_step_passes _ _ _ Hx).
      destruct IH as [(m & Hin & Hm & -> & Hmin) | [-> Hnone]]; simpl.
      * destruct (Qltb (dist m t) (dist x t)) eqn:E.
        -- apply Qltb_lt in E. left. exists m.
           split; [apply in_or_app; now left|].
           split; [assumption|]. split; [reflexivity|].
           intros m' [Hm'|[<-|[]]]%in_app_or Hp; [now apply Hmin|].
           now apply Qlt_le_weak.
        -- apply Qltb_ge in E. left. exists x.
           split; [apply in_or_app; right; now left|].
           split; [assumption|]. split; [reflexivity|].
           intros m' [Hm'|[<-|[]]]%in_app_or Hp; [|apply Qle_refl].
           eapply Qle_trans; [exact E | now apply Hmin].
      * left. exists x.
        split; [apply in_or_app; right; now left|].
        split; [assumption|]. split; [reflexivity|].
        intros m' [Hm'|[<-|[]]]%in_app_or Hp; [|apply Qle_refl].
        now destruct (Hnone m').
    + rewrite (select_step_fails _ _ _ Hx).
      destruct IH as [(m & Hin & Hm & Hst & Hmin) | [Hst Hnone]].
      * left. exists m.
        split; [apply in_or_app; now left|].
        split; [assumption|]. split; [assumption|].
        intros m' [Hm'|[<-|[]]]%in_app_or Hp; [now apply Hmin | contradiction].
      * right. split; [assumption|].
        intros m' [Hm'|[<-|[]]]%in_app_or; [now apply Hnone | assumption].
Qed.

Lemma best_matched_moi_none (t : track) (mois : list MOI) :
  (forall m, In m mois -> ~ passes m t) ->
  best_matched_moi t mois = (None, None).
Proof.
  intros Hnone. rewrite best_matched_moi_select.
  destruct (select_minimum t mois) as [(m & Hin & Hm & _) | [-> _]];
    [|reflexivity].
  now destruct (Hnone m).
Qed.

(** Candidates strictly farther than the running minimum leave it. *)
Lemma select_farther (t : track) (u : option Z) (d : Q) (post : list MOI) :
  (forall m', In m' post -> passes m' t -> (d < dist m' t)%Q) ->
  fold_left (select_step t) post (u, Some d) = (u, Some d).
Proof.
  induction post as [|x post IH]; intros Hpost; [reflexivity|]. simpl.
  destruct (passes_dec x t) as [Hx|Hx].
  - rewrite (select_step_passes _ _ _ Hx). simpl.
    assert (E : Qltb d (dist x t) = true)
      by (apply Qltb_lt, Hpost; [now left | assumption]).
    rewrite E. apply IH. intros m' Hin. apply Hpost. now right.
  - rewrite (select_step_fails _ _ _ Hx).
    apply IH. intros m' Hin. apply Hpost. now right.
Qed.

(** The candidate selected is the last one of least distance. *)
Lemma select_last_minimal (t : track) (pre : list MOI) (m : MOI) (post : list MOI) :
  passes m t ->
  (forall m', In m' pre -> passes m' t -> (dist m t <= dist m' t)%Q) ->
  (forall m', In m' post -> passes m' t -> (dist m t < dist m' t)%Q) ->
  best_matched_moi t (pre ++ m :: post) = (uuid m, Some (dist m t)).
Proof.
  intros Hm Hpre Hpost. rewrite best_matched_moi_select, fold_left_app. simpl.
  rewrite (select_step_passes _ _ _ Hm).
  destruct (select_minimum t pre) as [(m0 & Hin & Hm0 & -> & _) | [-> _]]; simpl.
  - assert (E : Qltb (dist m0 t) (dist m t) = false)
      by (apply Qltb_ge; now apply Hpre).
    rewrite E. now apply select_farther.
  - now apply select_farther.
Qed.

(** C6. [best_matched_moi] looks only at the MOIs that pass both the
    distance and the angle threshold; it returns the uuid and the distance
    of one of them whose distance is the least among them, and
    [(None, None)] when no MOI passes both thresholds. *)
Theorem best_matched_moi_minimum (t : track) (mois : list MOI) :
  (exists m, In m mois /\ passes m t /\
     best_matched_moi t mois = (uuid m, Some (dist m t)) /\
     forall m', In m' mois -> passes m' t -> (dist m t <= dist m' t)%Q)
  \/ (best_matched_moi t mois = (None, None) /\
      forall m, In m mois -> ~ passes m t).
Proof.
  rewrite best_matched_moi_select. apply select_minimum.
Qed.

(** C1, amended. When two candidates [m1] (earlier) and [m2] (later)
    have exactly equal distance, least among the candidates, and no
    candidate after [m2] has that distance too, the one selected is the
    later one, [m2]: the running minimum is replaced unless it is
    strictly smaller. *)
Theorem best_matched_moi_tie_later
    (t : track) (l1 : list MOI) (m1 : MOI) (l2 : list MOI) (m2 : MOI) (l3 : list MOI) :
  passes m1 t -> passes m2 t ->
  (dist m1 t == dist m2 t)%Q ->
  (forall m', In m' (l1 ++ m1 :: l2 ++ m2 :: l3) -> passes m' t ->
     (dist m2 t <= dist m' t)%Q) ->
  (forall m', In m' l3 -> passes m' t -> ~ (dist m' t == dist m2 t)%Q) ->
  best_matched_moi t (l1 ++ m1 :: l2 ++ m2 :: l3) = (uuid m2, Some (dist m2 t)).
Proof.
  intros _ H2 _ Hmin Hlast.
  replace (l1 ++ m1 :: l2 ++ m2 :: l3) with ((l1 ++ m1 :: l2) ++ m2 :: l3) in *
    by now rewrite <- app_assoc.
  apply select_last_minimal; [assumption| |].
  - intros m' Hin. apply Hmin, in_or_app. now left.
  - intros m' Hin Hp.
    assert (Hle : (dist m2 t <= dist m' t)%Q)
      by (apply Hmin; [apply in_or_app; right; now right | assumption]).
    apply Qle_lteq in Hle as [Hlt|Heq]; [assumption|].
    exfalso. apply (Hlast m' Hin Hp). now symmetry.
Qed.

(** *** Polygons *)

(** C2, amended. [find_moi_for_bbox] returns the uuid of the first
    polygon in registry order whose test on the centre of the box is
    strictly positive, whatever polygons follow it; a test equal to zero
    (centre on an edge) is no match; when no polygon's test is strictly
    positive it returns [None]. *)
Theorem find_moi_for_bbox_first_inside (b : bbox) (mois : list MOI) :
  (exists pre m post,
     mois = pre ++ m :: post /\
     Forall (fun m' => touch m' b <= 0) pre /\
     0 < touch m b /\
     find_moi_for_bbox b mois = uuid m)
  \/ (Forall (fun m => touch m b <= 0) mois /\ find_moi_for_bbox b mois = None).
Proof.
  induction mois as [|x l IH]; simpl.
  - right. split; [constructor | reflexivity].
  - destruct (0 <? touch x b) eqn:E.
    + apply Z.ltb_lt in E. left. exists [], x, l.
      split; [reflexivity|]. split; [constructor|]. split; [assumption | reflexivity].
    + apply Z.ltb_ge in E.
      destruct IH as [(pre & m & post & -> & Hpre & Hm & Hfind) | [Hall Hfind]].
      * left. exists (x :: pre), m, post.
        split; [reflexivity|]. split; [now constructor|]. split; assumption.
      * right. split; [now constructor | assumption].
Qed.

(** *** Association *)

Lemma set_moi_uuid_same (o : GMO) : set_moi_uuid o (moi_uuid o) = o.
Proof. now destruct o. Qed.

(** An object that already has a MOI is not written. *)
Lemma assign_if_none_assigned (f : GMO -> option Z) (h : gmap nat GMO)
    (b a : nat) (o : GMO) (u : Z) :
  h !! a = Some o -> moi_uuid o = Some u ->
  assign_if_none f h b !! a = Some o.
Proof.
  intros Ha Hu. unfold assign_if_none.
  destruct (h !! b) as [ob|] eqn:Eb; [|assumption].
  destruct (moi_uuid ob) eqn:Eu; [assumption|].
  destruct (decide (b = a)) as [->|Hne].
  - congruence.
  - now rewrite lookup_insert_ne.
Qed.

(** An object without a MOI for which [f] finds none stays as it is. *)
Lemma assign_if_none_unmatched (f : GMO -> option Z) (h : gmap nat GMO)
    (b a : nat) (o : GMO) :
  h !! a = Some o -> moi_uuid o = None -> f o = None ->
  assign_if_none f h b !! a = Some o.
Proof.
  intros Ha Hu Hf. unfold assign_if_none.
  destruct (h !! b) as [ob|] eqn:Eb; [|assumption].
  destruct (moi_uuid ob) eqn:Eu; [assumption|].
  destruct (decide (b = a)) as [->|Hne].
  - assert (ob = o) as -> by congruence.
    rewrite lookup_insert_eq, Hf, <- Hu. now rewrite set_moi_uuid_same.
  - now rewrite lookup_insert_ne.
Qed.

Lemma fold_assign_fixed (f : GMO -> option Z) (a : nat) (o : GMO) (gmos : list nat) :
  (forall h b, h !! a = Some o -> assign_if_none f h b !! a = Some o) ->
  forall h, h !! a = Some o -> fold_left (assign_if_none f) gmos h !! a = Some o.
Proof.
  intros Hstep. induction gmos as [|b gmos IH]; intros h Ha; [assumption|].
  simpl. now apply IH, Hstep.
Qed.

(** C4. An object whose [moi_uuid] is already set is left unchanged by
    [associate_moving_objects_to_mois], for any list of objects, any list
    of MOIs and any [shape_type]: the field is written only while it is
    [None]. *)
Theorem associate_keeps_assigned
    (h : gmap nat GMO) (gmos : list nat) (mois : list MOI) (shape : string)
    (a : nat) (o : GMO) (u : Z) :
  h !! a = Some o -> moi_uuid o = Some u ->
  associate h gmos mois shape !! a = Some o.
Proof.
  intros Ha Hu. unfold associate_moving_objects_to_mois.
  destruct (Z.of_nat (length gmos) <=? 0); [assumption|].
  destruct (String.eqb shape "polygon");
    [|destruct (String.eqb shape "linestrip"); [|assumption]].
  - apply fold_assign_fixed; [|assumption].
    intros h' b Hb. now apply assign_if_none_assigned with (u := u).
  - apply fold_assign_fixed; [|assumption].
    intros h' b Hb. now apply assign_if_none_assigned with (u := u).
Qed.

(** C5. When every linestrip MOI fails its distance test or its angle
    test on the trajectory of an object without a MOI, the object still
    has no MOI after [associate_moving_objects_to_mois] with
    [shape_type = "linestrip"], which returns normally. *)
Theorem associate_no_candidate
    (h : gmap nat GMO) (gmos : list nat) (mois : list MOI) (a : nat) (o : GMO) :
  h !! a = Some o -> moi_uuid o = None ->
  (forall m, In m mois -> has_shape "linestrip" m = true ->
     (distance_threshold m < dist m (trajectory o))%Q \/
     (angle_threshold m < angle_between_arrays (points m) (trajectory o))%Q) ->
  exists o',
    associate h gmos mois "linestrip" !! a = Some o' /\ moi_uuid o' = None.
Proof.
  intros Ha Hu Hfail. exists o. split; [|assumption].
  unfold associate_moving_objects_to_mois.
  destruct (Z.of_nat (length gmos) <=? 0); [assumption|].
  change (String.eqb "linestrip" "polygon") with false.
  change (String.eqb "linestrip" "linestrip") with true. cbv iota.
  apply fold_assign_fixed; [|assumption].
  intros h' b Hb. apply assign_if_none_unmatched; [assumption..|].
  rewrite best_matched_moi_none; [reflexivity|].
  intros m [Hin Hshape]%filter_In [Hd Hang].
  destruct (Hfail m Hin Hshape); contradiction.
Qed.

End Matching.

(** *** Examples *)

Import Samples.

Local Ltac not_lt := let H := fresh in intros H; vm_compute in H; discriminate H.
Local Ltac passing := split; not_lt.

Lemma best_matched_moi_tie_later_witness :
  best_matched_moi coarse_angle axis_track ([] ++ upper :: [] ++ lower :: [far_path])
  = (Some 2, Some 1%Q).
Proof.
  apply (best_matched_moi_tie_later coarse_angle axis_track [] upper [] lower [far_path]).
  - passing.
  - passing.
  - reflexivity.
  - intros m' [<-|[<-|[<-|[]]]] _; not_lt.
  - intros m' [<-|[]] _. not_lt.
Defined.

(** The claim as stated fails: [upper] and [lower] are candidates at the
    same, least distance from the track, and the earlier one, [upper], is
    not the one selected. *)
Lemma best_matched_moi_tie_earlier_fails :
  Moi.passes coarse_angle upper axis_track /\
  Moi.passes coarse_angle lower axis_track /\
  (distance_function upper (points upper) axis_track
   == distance_function lower (points lower) axis_track)%Q /\
  (forall m', In m' [upper; lower] ->
     (distance_function upper (points upper) axis_track
      <= distance_function m' (points m') axis_track)%Q) /\
  fst (best_matched_moi coarse_angle axis_track [upper; lower]) <> uuid upper.
Proof.
  split; [passing|]. split; [passing|]. split; [reflexivity|].
  split; [intros m' [<-|[<-|[]]]; not_lt|].
  vm_compute. discriminate.
Qed.

(** The claim as stated fails: the centre of [box_on_edge] is on an edge
    of [square], the test is zero, and the polygon is not returned. *)
Lemma find_moi_for_bbox_on_edge_fails :
  0 <= is_center_in_or_touch_moi crossing_test square box_on_edge false /\
  find_moi_for_bbox crossing_test box_on_edge [square] <> uuid square.
Proof.
  split; vm_compute; discriminate.
Qed.

Lemma associate_keeps_assigned_witness :
  associate_moving_objects_to_mois coarse_angle crossing_test
    heap_two [1%nat; 2%nat; 1%nat] [upper; square] "linestrip" !! 1%nat
  = Some {| moi_uuid := Some 7; current_bbox := box_inside; trajectory := axis_track |}.
Proof.
  apply (associate_keeps_assigned coarse_angle crossing_test heap_two
           [1%nat; 2%nat; 1%nat] [upper; square] "linestrip" 1%nat _ 7);
    reflexivity.
Defined.

Lemma associate_no_candidate_witness :
  exists o',
    associate_moving_objects_to_mois coarse_angle crossing_test
      heap_two [1%nat; 2%nat] [far_path; square] "linestrip" !! 2%nat = Some o'
    /\ moi_uuid o' = None.
Proof.
  apply (associate_no_candidate coarse_angle crossing_test heap_two
           [1%nat; 2%nat] [far_path; square] 2%nat
           {| moi_uuid := None; current_bbox := box_outside; trajectory := axis_track |}).
  - reflexivity.
  - reflexivity.
  - intros m [<-|[<-|[]]] Hs; [|discriminate Hs].
    left. reflexivity.
Defined.

End MoiFacts.

(** ** Construction and loading *)

Module LoadFacts.

Import Moi.

Section Loading.

Variable AppleRGB_WHITE : RGB.
Variable AppleRGB_values : list RGB.
Variable get_distance_function : string -> result (ndarray -> track -> Q).
Variable data_dir : string.
Variable is_json_file : string -> bool.
Variable parse_config_from_json : string -> result (list init_args).

Local Abbreviation init := (Moi.init AppleRGB_WHITE AppleRGB_values get_distance_function).
Local Abbreviation load_mois_from_file :=
  (Moi.load_mois_from_file AppleRGB_WHITE AppleRGB_values get_distance_function
     data_dir is_json_file parse_config_from_json).

(** The test of [__init__] looks at the width of the rows, never at
    their number: an array of rows of two or more entries is accepted. *)
Lemma init_row_width (args : init_args) (pts : ndarray) (m : MOI) :
  points_setter (a_points args) = Ok (Some pts) ->
  init args = Ok m ->
  points m = pts /\ Forall (fun row => (2 <= length row)%nat) pts.
Proof.
  intros Hp. unfold Moi.init. destruct (a_kwargs args); [|discriminate].
  rewrite Hp. cbn [mbind result_bind].
  destruct (match a_uuid args with Some _ => _ | None => _ end); [|discriminate].
  destruct (get_distance_function _); [|discriminate].
  destruct (forallb _ pts) eqn:E; [|discriminate].
  intros [= <-]. split; [reflexivity|].
  apply Forall_forall. intros row Hin%list_elem_of_In.
  rewrite forallb_forall in E. specialize (E row Hin).
  apply Z.leb_le in E. lia.
Qed.

(** C7. When the path is no JSON file (the file is missing or of
    another type), [load_mois_from_file] raises its error without having
    called the constructor, and returns no MOI. *)
Theorem load_mois_from_file_not_json
    (file : string) (dataset : option string) (kwargs : list string) :
  is_json_file (mois_path data_dir file dataset) = false ->
  load_mois_from_file file dataset kwargs = (O, Raise FileNotFoundError).
Proof.
  intros H. unfold Moi.load_mois_from_file. now rewrite H.
Qed.

End Loading.

Import Samples.

(** C3. A sequence of one point is accepted: the constructor returns a
    MOI whose [points] has a single row. *)
Theorem init_accepts_one_point :
  exists m,
    Moi.init AppleRGB_WHITE AppleRGB_values get_distance_function one_point_args = Ok m
    /\ points m = [[5; 5]] /\ length (points m) = 1%nat.
Proof.
  eexists. split; [reflexivity|]. split; reflexivity.
Qed.

Lemma load_mois_from_file_not_json_witness :
  Moi.load_mois_from_file AppleRGB_WHITE AppleRGB_values get_distance_function
    data_dir is_json_file parse_config_from_json "cam_9.json" (Some "aicity2021") []
  = (O, Raise FileNotFoundError).
Proof.
  apply (load_mois_from_file_not_json AppleRGB_WHITE AppleRGB_values
           get_distance_function data_dir is_json_file parse_config_from_json
           "cam_9.json" (Some "aicity2021") []).
  reflexivity.
Defined.

(** The configuration that is there loads, with one call of the
    constructor. *)
Example load_cam_1 :
  exists m,
    Moi.load_mois_from_file AppleRGB_WHITE AppleRGB_values get_distance_function
      data_dir is_json_file parse_config_from_json "cam_1.json" (Some "aicity2021") []
    = (1%nat, Ok [m]) /\ points m = [[0; 0]; [100; 0]].
Proof.
  eexists. split; reflexivity.
Qed.

End LoadFacts.

(** ** The video reader *)

Module VideoFacts.

Import Video.

Section Batches.

Variable frame : Type.

Local Abbreviation VideoReader := (Video.VideoReader frame).

(** One run of the loop of [__next__] appends to [frame_indexes] at
    most [n] indices, in increasing order, all of them after the frame
    index at entry and none after the frame index at exit, and one
    image for each. *)
Lemma next_loop_spec (n : nat) :
  forall (r r' : VideoReader) fi im fi' im',
    next_loop frame n r fi im = (r', (fi', im')) ->
    exists new,
      fi' = (fi ++ new)%list /\
      (length new <= n)%nat /\
      length im' = (length im + length new)%nat /\
      StronglySorted Z.lt new /\
      Forall (fun x => frame_idx frame r < x <= frame_idx frame r') new /\
      frame_idx frame r <= frame_idx frame r' /\
      num_frames frame r' = num_frames frame r /\
      batch_size frame r' = batch_size frame r.
Proof.
  induction n as [|n IH]; intros r r' fi im fi' im'; simpl.
  - intros [= <- <- <-]. exists []. rewrite app_nil_r.
    repeat split; try constructor; simpl; lia.
  - destruct (num_frames frame r <=? frame_idx frame r + 1) eqn:E.
    + intros [= <- <- <-]. exists []. rewrite app_nil_r. simpl.
      repeat split; try constructor; simpl; lia.
    + destruct (cap_read frame (cap frame r)) as [[ret image] c].
      intros (new & -> & Hlen & Him & Hs & Hall & Hle & Hn & Hb)%IH.
      simpl in *. exists (frame_idx frame r + 1 :: new).
      rewrite <- app_assoc. split; [reflexivity|].
      split; [simpl; lia|].
      split; [rewrite Him, length_app; simpl; lia|].
      split.
      { constructor; [assumption|].
        eapply Forall_impl; [exact Hall|]. simpl. intros x Hx. lia. }
      split.
      { constructor; [lia|].
        eapply Forall_impl; [exact Hall|]. simpl. intros x Hx. lia. }
      repeat split; try assumption; lia.
Qed.

(** The batches of successive calls: each has at most [batch_size]
    indices, in increasing order, and as many images; all the indices
    together are in increasing order and after the frame index at
    entry. *)
Lemma batches_spec (calls : nat) :
  forall r : VideoReader,
    0 <= batch_size frame r ->
    let bs := batches frame calls r in
    Forall (fun b => Z.of_nat (length (fst b)) <= batch_size frame r
                     /\ StronglySorted Z.lt (fst b)
                     /\ length (snd b) = length (fst b)) bs /\
    StronglySorted Z.lt (concat (map fst bs)) /\
    Forall (fun x => frame_idx frame r < x) (concat (map fst bs)).
Proof.
  induction calls as [|calls IH]; intros r Hb; simpl.
  - repeat split; constructor.
  - unfold next. destruct (num_frames frame r <=? frame_idx frame r).
    { repeat split; constructor. }
    destruct (next_loop frame _ r [] []) as [r' [fi im]] eqn:Hloop.
    apply next_loop_spec in Hloop
      as (new & -> & Hlen & Him & Hs & Hall & Hle & Hn & Hbs).
    simpl in *.
    destruct (IH r') as (Hbatches & Hsorted & Hafter); [lia|].
    split; [|split].
    + constructor; [simpl; split; [lia | split; [assumption | lia]]|].
      eapply Forall_impl; [exact Hbatches|]. simpl.
      intros b (H1 & H2 & H3). split; [lia | split; assumption].
    + apply StronglySorted_app_2; [|assumption..].
      intros x1 x2 Hx1 Hx2.
      rewrite Forall_forall in Hall, Hafter.
      specialize (Hall x1 Hx1). specialize (Hafter x2 Hx2). lia.
    + apply Forall_app. split.
      * eapply Forall_impl; [exact Hall|]. simpl. intros x Hx. lia.
      * eapply Forall_impl; [exact Hafter|]. simpl. intros x Hx. lia.
Qed.

(** C8. With [batch_size >= 1], every batch that [__next__] returns
    has at most [batch_size] frames and strictly increasing frame indices,
    and the indices are strictly increasing across the successive batches
    of an iteration. *)
Theorem batches_bounded_increasing (r : VideoReader) (calls : nat) :
  1 <= batch_size frame r ->
  let bs := batches frame calls (iter frame r) in
  Forall (fun b => Z.of_nat (length (fst b)) <= batch_size frame r) bs /\
  Forall (fun b => length (snd b) = length (fst b)) bs /\
  Forall (fun b => StronglySorted Z.lt (fst b)) bs /\
  StronglySorted Z.lt (concat (map fst bs)).
Proof.
  intros Hb.
  destruct (batches_spec calls (iter frame r)) as (Hbatches & Hsorted & _);
    [simpl; lia|].
  simpl in *. repeat split; try assumption.
  all: eapply Forall_impl; [exact Hbatches|]; simpl; tauto.
Qed.

End Batches.

Section Online.

Variable frame : Type.
Variable data_dir : string.
Variable is_video_file : string -> bool.
Variable is_video_stream : string -> bool.
Variable cv2_VideoCapture : string -> VideoCapture frame.

Local Abbreviation VideoReader := (Video.VideoReader frame).
Local Abbreviation init :=
  (Video.init frame data_dir is_video_file is_video_stream cv2_VideoCapture).

(** C9. A reader built on an online stream has [num_frames = -1]; its
    first call of [__next__] raises [StopIteration], and iterating over it
    yields no batch. *)
Theorem online_stream_yields_nothing
    (dataset file : option string) (s : string) (dims : Z * Z * Z)
    (frame_rate : Q) (bs : Z) (r : VideoReader) :
  s <> ""%string ->
  init dataset file (Some s) dims frame_rate bs = Ok r ->
  num_frames frame r = -1 /\
  frame_idx frame r = 0 /\
  next frame r = (r, Raise StopIteration) /\
  next frame (iter frame r) = (iter frame r, Raise StopIteration) /\
  forall calls, batches frame calls (iter frame r) = [].
Proof.
  intros Hs. unfold Video.init. destruct s as [|a s]; [contradiction|].
  unfold create_online_stream. destruct (is_video_stream _); [|discriminate].
  cbn [mbind result_bind]. intros [= <-].
  repeat split. intros [|calls]; reflexivity.
Qed.

End Online.

Import Samples.

Lemma batches_bounded_increasing_witness :
  map fst (batches nat 4 (iter nat offline_reader)) = [[1; 2]; [3; 4]; []] /\
  StronglySorted Z.lt (concat (map fst (batches nat 4 (iter nat offline_reader)))).
Proof.
  split; [reflexivity|].
  apply (batches_bounded_increasing nat offline_reader 4). simpl. lia.
Defined.

Lemma online_stream_yields_nothing_witness :
  exists r,
    Video.init nat data_dir is_video_file is_video_stream capture_of
      None None (Some "rtsp://192.168.1.64/1") (3, 1920, 1080) 10 4 = Ok r /\
    num_frames nat r = -1 /\
    batches nat 3 (iter nat r) = [].
Proof.
  eexists. split; [reflexivity|].
  destruct (online_stream_yields_nothing nat data_dir is_video_file
              is_video_stream capture_of None None "rtsp://192.168.1.64/1"
              (3, 1920, 1080) 10 4 _ ltac:(discriminate) eq_refl)
    as (Hn & _ & _ & _ & Hb).
  split; [exact Hn | apply Hb].
Defined.

End VideoFacts.

(** ** The image reader *)

Module ImageFacts.

Import Image.

Lemma index_in_range {A} (l : list A) (j : Z) :
  0 <= j < Z.of_nat (length l) -> exists a, index l j = Ok a.
Proof.
  intros [H0 Hn]. unfold index.
  apply Z.leb_le in H0 as E0. rewrite E0, E0.
  apply Z.ltb_lt in Hn as En. rewrite En. simpl.
  destruct (lookup_lt_is_Some_2 l (Z.to_nat j)) as [a Ha]; [lia|].
  rewrite Ha. now exists a.
Qed.

Lemma index_past_end {A} (l : list A) (j : Z) :
  Z.of_nat (length l) <= j -> index l j = Raise IndexError.
Proof.
  intros Hn. unfold index.
  assert (E0 : (0 <=? j) = true) by (apply Z.leb_le; lia).
  assert (En : (j <? Z.of_nat (length l)) = false) by (apply Z.ltb_ge; lia).
  now rewrite E0, E0, En.
Qed.

Section Reader.

Variable image : Type.
Variable glob_glob : string -> list string.
Variable is_image_file : string -> bool.
Variable cv2_imread : string -> image.

Local Abbreviation ImageReader := Image.ImageReader.
Local Abbreviation init := (Image.init glob_glob is_image_file).
Local Abbreviation next_loop := (Image.next_loop image cv2_imread).
Local Abbreviation iterate := (Image.iterate image cv2_imread).

(** What [__init__] establishes. *)
Local Abbreviation counted r := (number_of_frame r = Z.of_nat (length (images r))).

Lemma init_counted (filename dirname : option string) (bs : Z) (r : ImageReader) :
  init filename dirname bs = Ok r -> counted r /\ batch_size r = bs.
Proof.
  unfold Image.init. destruct dirname; [|destruct filename; discriminate].
  intros [= <-]. split; reflexivity.
Qed.

(** While the loop stays short of the last image it reads at the
    indices [i + 1 .. i + n] and returns normally. *)
Lemma next_loop_ok (n : nat) :
  forall (r : ImageReader) imgs fids reads i,
    counted r -> frame_idx r = Some i -> 0 <= i ->
    i + Z.of_nat n < number_of_frame r ->
    exists r' batch new,
      next_loop n r imgs fids reads = (r', (reads ++ new)%list, Ok batch) /\
      frame_idx r' = Some (i + Z.of_nat n) /\
      images r' = images r /\
      number_of_frame r' = number_of_frame r /\
      batch_size r' = batch_size r /\
      Forall (fun x => i < x) new.
Proof.
  induction n as [|n IH]; intros r imgs fids reads i Hc Hi H0 Hn; simpl.
  - exists r, (imgs, fids), []. rewrite app_nil_r, Z.add_0_r.
    repeat split; [assumption | constructor].
  - rewrite Hi. assert (E : (i <? number_of_frame r) = true) by (apply Z.ltb_lt; lia).
    rewrite E. cbn [images set_frame_idx].
    destruct (index_in_range (images r) (i + 1)) as [path Hpath];
      [rewrite <- Hc; lia|].
    rewrite Hpath.
    destruct (IH (set_frame_idx r (i + 1)) (imgs ++ [cv2_imread path])%list
                (fids ++ [i + 1])%list (reads ++ [i + 1])%list (i + 1))
      as (r' & batch & new & Hloop & Hidx & Him & Hnum & Hbs & Hnew);
      [assumption | reflexivity | lia | simpl; lia |].
    exists r', batch, (i + 1 :: new).
    rewrite Hloop, <- app_assoc. simpl in *.
    repeat split; try assumption.
    + rewrite Hidx. f_equal. lia.
    + constructor; [lia|]. eapply Forall_impl; [exact Hnew|]. simpl. lia.
Qed.

(** When the loop reaches the last image it reads at the index
    [number_of_frame], one past the end, and raises. *)
Lemma next_loop_raises (n : nat) :
  forall (r : ImageReader) imgs fids reads i,
    counted r -> frame_idx r = Some i -> 0 <= i < number_of_frame r ->
    number_of_frame r <= i + Z.of_nat n ->
    exists r' new,
      next_loop n r imgs fids reads = (r', (reads ++ new)%list, Raise IndexError) /\
      In (number_of_frame r) new /\
      Forall (fun x => i < x) new.
Proof.
  induction n as [|n IH]; intros r imgs fids reads i Hc Hi H0 Hn; simpl.
  - lia.
  - rewrite Hi. assert (E : (i <? number_of_frame r) = true) by (apply Z.ltb_lt; lia).
    rewrite E. cbn [images set_frame_idx].
    destruct (Z.eq_dec (i + 1) (number_of_frame r)) as [Hlast|Hmore].
    + rewrite index_past_end by (rewrite <- Hc; lia).
      exists (set_frame_idx r (i + 1)), [i + 1]. rewrite Hlast.
      repeat split; [now left|]. constructor; [lia | constructor].
    + destruct (index_in_range (images r) (i + 1)) as [path Hpath];
        [rewrite <- Hc; lia|].
      rewrite Hpath.
      destruct (IH (set_frame_idx r (i + 1)) (imgs ++ [cv2_imread path])%list
                  (fids ++ [i + 1])%list (reads ++ [i + 1])%list (i + 1))
        as (r' & new & Hloop & Hin & Hnew);
        [assumption | reflexivity | simpl; lia | simpl; lia |].
      exists r', (i + 1 :: new).
      rewrite Hloop, <- app_assoc. simpl in *.
      repeat split; [now right|].
      constructor; [lia|]. eapply Forall_impl; [exact Hnew|]. simpl. lia.
Qed.

(** Successive calls of [__next__] end in the read one past the end. *)
Lemma iterate_raises (k : nat) :
  forall (r : ImageReader) i,
    counted r -> frame_idx r = Some i -> 0 <= i < number_of_frame r ->
    1 <= batch_size r ->
    (Z.to_nat (number_of_frame r - i) <= k)%nat ->
    exists calls reads,
      iterate calls r = (reads, Some IndexError) /\
      In (number_of_frame r) reads /\
      Forall (fun x => i < x) reads.
Proof.
  induction k as [|k IH]; intros r i Hc Hi H0 Hbs Hk; [lia|].
  destruct (Z_le_gt_dec (number_of_frame r) (i + Z.of_nat (Z.to_nat (batch_size r))))
    as [Hend|Hmore].
  - destruct (next_loop_raises (Z.to_nat (batch_size r)) r [] [] [] i)
      as (r' & new & Hloop & Hin & Hnew); [assumption..|].
    exists 1%nat, new. simpl. unfold next. rewrite Hloop. simpl.
    repeat split; assumption.
  - destruct (next_loop_ok (Z.to_nat (batch_size r)) r [] [] [] i)
      as (r' & batch & new & Hloop & Hidx & Him & Hnum & Hb & Hnew);
      [assumption | assumption | lia | lia |].
    destruct (IH r' (i + Z.of_nat (Z.to_nat (batch_size r))))
      as (calls & reads & Hit & Hin & Hreads).
    { now rewrite Hnum, Him. }
    { assumption. }
    { rewrite Hnum. lia. }
    { now rewrite Hb. }
    { rewrite Hnum. lia. }
    exists (S calls), (new ++ reads)%list. simpl. unfold next.
    rewrite Hloop, Hit. simpl. rewrite Hnum in Hin.
    repeat split.
    + apply in_or_app. now right.
    + apply Forall_app. split; [assumption|].
      eapply Forall_impl; [exact Hreads|]. simpl. lia.
Qed.

(** C10. For a reader over a non-empty list of images and
    [batch_size >= 1], the iteration reads [self.images] at the index
    [number_of_frame], which is out of bounds, and ends in [IndexError];
    the image at index [0] is never read. *)
Theorem image_reader_reads_past_end
    (filename dirname : option string) (bs : Z) (r : ImageReader) :
  init filename dirname bs = Ok r ->
  images r <> [] ->
  1 <= bs ->
  exists calls reads,
    iterate calls (iter r) = (reads, Some IndexError) /\
    In (Z.of_nat (length (images r))) reads /\
    ~ In 0 reads.
Proof.
  intros [Hc Hbs]%init_counted Hne Hb.
  destruct (iterate_raises (Z.to_nat (number_of_frame r)) (iter r) 0)
    as (calls & reads & Hit & Hin & Hreads).
  - exact Hc.
  - reflexivity.
  - simpl. rewrite Hc. destruct (images r); [contradiction | simpl; lia].
  - simpl. lia.
  - simpl. lia.
  - exists calls, reads. simpl in Hin. rewrite <- Hc.
    repeat split; try assumption.
    intros H0. rewrite Forall_forall in Hreads.
    apply list_elem_of_In, Hreads in H0. lia.
Qed.

End Reader.

Import Samples.

Lemma image_reader_reads_past_end_witness :
  exists r,
    Image.init glob_glob is_image_file None (Some "/imgs") 1 = Ok r /\
    images r = ["/imgs/a.jpg"; "/imgs/b.jpg"] /\
    Image.next string cv2_imread (iter r)
    = (set_frame_idx r 1, [1], Ok (["/imgs/b.jpg"], [1])) /\
    Image.next string cv2_imread (Image.set_frame_idx r 1)
    = (set_frame_idx r 2, [2], Raise IndexError) /\
    exists calls reads,
      Image.iterate string cv2_imread calls (iter r) = (reads, Some IndexError) /\
      In 2 reads /\ ~ In 0 reads.
Proof.
  eexists. split; [reflexivity|]. split; [reflexivity|].
  split; [reflexivity|]. split; [reflexivity|].
  apply (image_reader_reads_past_end string glob_glob is_image_file cv2_imread
           None (Some "/imgs") 1 _ eq_refl).
  - discriminate.
  - lia.
Defined.

End ImageFacts.

(** * Further properties *)

(** ** The matcher, continued *)

Module MoiMore.

Import Moi.

Section Matching.

Variable angle_between_arrays : ndarray -> track -> Q.
Variable pointPolygonTest : ndarray -> Q * Q -> bool -> Q.

Local Abbreviation dist m t := (distance_function m (points m) t).
Local Abbreviation passes := (Moi.passes angle_between_arrays).
Local Abbreviation select_step := (Moi.select_step angle_between_arrays).
Local Abbreviation best_matched_moi := (Moi.best_matched_moi angle_between_arrays).
Local Abbreviation find_moi_for_bbox := (Moi.find_moi_for_bbox pointPolygonTest).
Local Abbreviation associate :=
  (associate_moving_objects_to_mois angle_between_arrays pointPolygonTest).

(** A MOI that fails a threshold has no influence on the result,
    wherever it stands in the list. *)
Theorem best_matched_moi_skips_failing
    (t : track) (pre : list MOI) (m : MOI) (post : list MOI) :
  ~ passes m t ->
  best_matched_moi t (pre ++ m :: post) = best_matched_moi t (pre ++ post).
Proof.
  intros Hm. rewrite !MoiFacts.best_matched_moi_select, !fold_left_app. simpl.
  now rewrite MoiFacts.select_step_fails.
Qed.

(** A candidate strictly nearer than every other candidate is the one
    selected, wherever it stands in the list. *)
Theorem best_matched_moi_strict_minimum
    (t : track) (pre : list MOI) (m : MOI) (post : list MOI) :
  passes m t ->
  (forall m', In m' (pre ++ post) -> passes m' t -> (dist m t < dist m' t)%Q) ->
  best_matched_moi t (pre ++ m :: post) = (uuid m, Some (dist m t)).
Proof.
  intros Hm Hothers. apply MoiFacts.select_last_minimal; [assumption| |].
  - intros m' Hin Hp. apply Qlt_le_weak, Hothers; [|assumption].
    apply in_or_app. now left.
  - intros m' Hin Hp. apply Hothers; [|assumption].
    apply in_or_app. now right.
Qed.

(** *** What [associate_moving_objects_to_mois] writes *)

Lemma assign_if_none_other (f : GMO -> option Z) (h : gmap nat GMO) (b a : nat) :
  b <> a -> assign_if_none f h b !! a = h !! a.
Proof.
  intros Hne. unfold assign_if_none.
  destruct (h !! b) as [ob|]; [|reflexivity].
  destruct (moi_uuid ob); [reflexivity|]. now rewrite lookup_insert_ne.
Qed.

Lemma assign_if_none_here (f : GMO -> option Z) (h : gmap nat GMO) (a : nat) (o : GMO) :
  h !! a = Some o -> moi_uuid o = None ->
  assign_if_none f h a !! a = Some (set_moi_uuid o (f o)).
Proof.
  intros Ha Hu. unfold assign_if_none. rewrite Ha, Hu. apply lookup_insert_eq.
Qed.

(** Once written, the object stays as it is for the rest of the loop. *)
Lemma fold_assign_written (f : GMO -> option Z) (a : nat) (o : GMO) (gmos : list nat) :
  moi_uuid o = None ->
  forall h, h !! a = Some (set_moi_uuid o (f o)) ->
    fold_left (assign_if_none f) gmos h !! a = Some (set_moi_uuid o (f o)).
Proof.
  intros Hu. apply MoiFacts.fold_assign_fixed. intros h b Hb.
  destruct (f o) as [u|] eqn:Hf.
  - now apply MoiFacts.assign_if_none_assigned with (u := u).
  - rewrite <- Hu, MoiFacts.set_moi_uuid_same in *.
    apply MoiFacts.assign_if_none_unmatched; congruence.
Qed.

Lemma fold_assign_listed (f : GMO -> option Z) (a : nat) (o : GMO) (gmos : list nat) :
  moi_uuid o = None -> In a gmos ->
  forall h, h !! a = Some o ->
    fold_left (assign_if_none f) gmos h !! a = Some (set_moi_uuid o (f o)).
Proof.
  intros Hu. induction gmos as [|b gmos IH]; intros Hin h Ha; [destruct Hin|].
  simpl. destruct (decide (b = a)) as [->|Hne].
  - apply fold_assign_written; [assumption|]. now apply assign_if_none_here.
  - destruct Hin as [Hin|Hin]; [contradiction|].
    apply IH; [assumption|]. now rewrite assign_if_none_other.
Qed.

Lemma fold_assign_unlisted (f : GMO -> option Z) (a : nat) (gmos : list nat) :
  ~ In a gmos ->
  forall h, fold_left (assign_if_none f) gmos h !! a = h !! a.
Proof.
  induction gmos as [|b gmos IH]; intros Hin h; [reflexivity|].
  simpl. rewrite IH by (intros H; apply Hin; now right).
  apply assign_if_none_other. intros ->. apply Hin. now left.
Qed.

(** In polygon mode, an unassigned object of the list receives the
    answer of [find_moi_for_bbox] on its box and the polygon MOIs, in
    registry order. *)
Theorem associate_polygon_assigns
    (h : gmap nat GMO) (gmos : list nat) (mois : list MOI) (a : nat) (o : GMO) :
  h !! a = Some o -> moi_uuid o = None -> In a gmos ->
  associate h gmos mois "polygon" !! a
  = Some (set_moi_uuid o
            (find_moi_for_bbox (current_bbox o) (List.filter (has_shape "polygon") mois))).
Proof.
  intros Ha Hu Hin. unfold associate_moving_objects_to_mois.
  destruct gmos as [|b gmos]; [destruct Hin|].
  change (Z.of_nat (length (b :: gmos)) <=? 0) with false.
  change (String.eqb "polygon" "polygon") with true. cbv iota.
  now apply (fold_assign_listed
               (fun o => find_moi_for_bbox (current_bbox o)
                           (List.filter (has_shape "polygon") mois))).
Qed.

(** In linestrip mode, an unassigned object of the list receives the
    uuid that [best_matched_moi] returns for its trajectory and the
    linestrip MOIs. *)
Theorem associate_linestrip_assigns
    (h : gmap nat GMO) (gmos : list nat) (mois : list MOI) (a : nat) (o : GMO) :
  h !! a = Some o -> moi_uuid o = None -> In a gmos ->
  associate h gmos mois "linestrip" !! a
  = Some (set_moi_uuid o
            (fst (best_matched_moi (trajectory o)
                    (List.filter (has_shape "linestrip") mois)))).
Proof.
  intros Ha Hu Hin. unfold associate_moving_objects_to_mois.
  destruct gmos as [|b gmos]; [destruct Hin|].
  change (Z.of_nat (length (b :: gmos)) <=? 0) with false.
  change (String.eqb "linestrip" "polygon") with false.
  change (String.eqb "linestrip" "linestrip") with true. cbv iota.
  now apply (fold_assign_listed
               (fun o => fst (best_matched_moi (trajectory o)
                                (List.filter (has_shape "linestrip") mois)))).
Qed.

(** *** What it leaves alone *)

Lemma assign_if_none_fields (f : GMO -> option Z) (h : gmap nat GMO) (b a : nat) :
  current_bbox <$> assign_if_none f h b !! a = current_bbox <$> h !! a /\
  trajectory <$> assign_if_none f h b !! a = trajectory <$> h !! a.
Proof.
  unfold assign_if_none.
  destruct (h !! b) as [ob|] eqn:Eb; [|split; reflexivity].
  destruct (moi_uuid ob); [split; reflexivity|].
  destruct (decide (b = a)) as [->|Hne].
  - rewrite lookup_insert_eq, Eb. split; reflexivity.
  - rewrite lookup_insert_ne by assumption. split; reflexivity.
Qed.

Lemma fold_assign_fields (f : GMO -> option Z) (a : nat) (gmos : list nat) :
  forall h,
    current_bbox <$> fold_left (assign_if_none f) gmos h !! a = current_bbox <$> h !! a /\
    trajectory <$> fold_left (assign_if_none f) gmos h !! a = trajectory <$> h !! a.
Proof.
  induction gmos as [|b gmos IH]; intros h; [split; reflexivity|]. simpl.
  destruct (IH (assign_if_none f h b)) as [-> ->].
  apply assign_if_none_fields.
Qed.

(** The association writes nothing but [moi_uuid], and only on the
    objects of the list: every object keeps its box and its trajectory,
    an object that is not in the list is untouched, and no object appears
    or disappears. *)
Theorem associate_frame
    (h : gmap nat GMO) (gmos : list nat) (mois : list MOI) (shape : string) (a : nat) :
  (~ In a gmos -> associate h gmos mois shape !! a = h !! a) /\
  current_bbox <$> associate h gmos mois shape !! a = current_bbox <$> h !! a /\
  trajectory <$> associate h gmos mois shape !! a = trajectory <$> h !! a.
Proof.
  unfold associate_moving_objects_to_mois.
  destruct (Z.of_nat (length gmos) <=? 0); [repeat split; reflexivity|].
  destruct (String.eqb shape "polygon");
    [|destruct (String.eqb shape "linestrip"); [|repeat split; reflexivity]].
  - split; [intros Hin; now apply fold_assign_unlisted | apply fold_assign_fields].
  - split; [intros Hin; now apply fold_assign_unlisted | apply fold_assign_fields].
Qed.

(** *** Running it twice *)

Lemma fold_assign_absent (f : GMO -> option Z) (a : nat) (gmos : list nat) :
  forall h, h !! a = None -> fold_left (assign_if_none f) gmos h !! a = None.
Proof.
  induction gmos as [|b gmos IH]; intros h Ha; [assumption|]. simpl.
  apply IH. destruct (decide (b = a)) as [->|Hne].
  - unfold assign_if_none. now rewrite Ha.
  - now rewrite assign_if_none_other.
Qed.

Lemma fold_assign_idem (f : GMO -> option Z) (gmos : list nat) (h : gmap nat GMO) :
  fold_left (assign_if_none f) gmos (fold_left (assign_if_none f) gmos h)
  = fold_left (assign_if_none f) gmos h.
Proof.
  apply map_eq. intros a.
  destruct (h !! a) as [o|] eqn:Ha.
  - destruct (moi_uuid o) as [u|] eqn:Hu.
    + assert (Hfix : forall h', h' !! a = Some o ->
                 fold_left (assign_if_none f) gmos h' !! a = Some o).
      { apply MoiFacts.fold_assign_fixed. intros h' b Hb.
        now apply MoiFacts.assign_if_none_assigned with (u := u). }
      rewrite (Hfix h Ha). now apply Hfix, Hfix.
    + destruct (in_dec Nat.eq_dec a gmos) as [Hin|Hout].
      * rewrite (fold_assign_listed f a o gmos Hu Hin h Ha).
        apply fold_assign_written; [assumption|].
        now apply fold_assign_listed.
      * now rewrite !fold_assign_unlisted.
  - rewrite (fold_assign_absent f a gmos h Ha).
    now apply fold_assign_absent, fold_assign_absent.
Qed.

(** Running the association a second time, on the same objects and
    MOIs, changes nothing in the heap. *)
Theorem associate_idempotent
    (h : gmap nat GMO) (gmos : list nat) (mois : list MOI) (shape : string) :
  associate (associate h gmos mois shape) gmos mois shape
  = associate h gmos mois shape.
Proof.
  unfold associate_moving_objects_to_mois.
  destruct (Z.of_nat (length gmos) <=? 0); [reflexivity|].
  destruct (String.eqb shape "polygon");
    [|destruct (String.eqb shape "linestrip"); [|reflexivity]];
    apply fold_assign_idem.
Qed.

End Matching.

Import Samples.

Local Ltac not_lt := let H := fresh in intros H; vm_compute in H; discriminate H.

Lemma best_matched_moi_skips_failing_witness :
  best_matched_moi coarse_angle axis_track ([upper] ++ far_path :: [lower])
  = best_matched_moi coarse_angle axis_track ([upper] ++ [lower]).
Proof.
  apply (best_matched_moi_skips_failing coarse_angle axis_track [upper] far_path [lower]).
  intros [Hd _]. apply Hd. reflexivity.
Defined.

Lemma best_matched_moi_strict_minimum_witness :
  best_matched_moi coarse_angle axis_track ([far_path] ++ upper :: [near_path])
  = (Some 1, Some 1%Q).
Proof.
  apply (best_matched_moi_strict_minimum coarse_angle axis_track [far_path] upper [near_path]).
  - split; not_lt.
  - intros m' [<-|[<-|[]]] _; reflexivity.
Defined.

Lemma associate_polygon_assigns_witness :
  associate_moving_objects_to_mois coarse_angle crossing_test
    heap_inside [5%nat] [upper; square] "polygon" !! 5%nat
  = Some {| moi_uuid := Some 1; current_bbox := box_inside; trajectory := axis_track |}.
Proof.
  apply (associate_polygon_assigns coarse_angle crossing_test heap_inside
           [5%nat] [upper; square] 5%nat
           {| moi_uuid := None; current_bbox := box_inside; trajectory := axis_track |}).
  - reflexivity.
  - reflexivity.
  - now left.
Defined.

Lemma associate_linestrip_assigns_witness :
  associate_moving_objects_to_mois coarse_angle crossing_test
    heap_inside [5%nat] [far_path; square; upper] "linestrip" !! 5%nat
  = Some {| moi_uuid := Some 1; current_bbox := box_inside; trajectory := axis_track |}.
Proof.
  apply (associate_linestrip_assigns coarse_angle crossing_test heap_inside
           [5%nat] [far_path; square; upper] 5%nat
           {| moi_uuid := None; current_bbox := box_inside; trajectory := axis_track |}).
  - reflexivity.
  - reflexivity.
  - now left.
Defined.

End MoiMore.

(** ** Construction and loading, continued *)

Module LoadMore.

Import Moi.

Lemma index_outside {A} (l : list A) (i : Z) :
  i < - Z.of_nat (length l) \/ Z.of_nat (length l) <= i ->
  index l i = Raise IndexError.
Proof.
  intros Hi. unfold index. cbv zeta.
  destruct (0 <=? i) eqn:E0.
  - apply Z.leb_le in E0.
    assert (En : (i <? Z.of_nat (length l)) = false) by (apply Z.ltb_ge; lia).
    now rewrite En, andb_false_r.
  - apply Z.leb_gt in E0.
    assert (Ej : (0 <=? Z.of_nat (length l) + i) = false) by (apply Z.leb_gt; lia).
    now rewrite Ej.
Qed.

Section Loading.

Variable AppleRGB_WHITE : RGB.
Variable AppleRGB_values : list RGB.
Variable get_distance_function : string -> result (ndarray -> track -> Q).
Variable data_dir : string.
Variable is_json_file : string -> bool.
Variable parse_config_from_json : string -> result (list init_args).

Local Abbreviation init := (Moi.init AppleRGB_WHITE AppleRGB_values get_distance_function).
Local Abbreviation load_loop :=
  (Moi.load_loop AppleRGB_WHITE AppleRGB_values get_distance_function).
Local Abbreviation load_mois_from_file :=
  (Moi.load_mois_from_file AppleRGB_WHITE AppleRGB_values get_distance_function
     data_dir is_json_file parse_config_from_json).

(** The constructor returns only after each of its steps went through. *)
Lemma init_returns (args : init_args) (m : MOI) :
  init args = Ok m ->
  a_kwargs args = [] /\
  uuid m = a_uuid args /\
  shape_type m = a_shape_type args /\
  offset m = a_offset args /\
  distance_threshold m = a_distance_threshold args /\
  angle_threshold m = a_angle_threshold args /\
  points_setter (a_points args) = Ok (Some (points m)) /\
  Forall (fun row => (2 <= length row)%nat) (points m) /\
  get_distance_function (a_distance_function args) = Ok (distance_function m).
Proof.
  unfold Moi.init. destruct (a_kwargs args); [|discriminate].
  destruct (points_setter (a_points args)) as [[pts|]|]; cbn [mbind result_bind];
    try discriminate.
  - destruct (match a_uuid args with Some _ => _ | None => _ end); [|discriminate].
    destruct (get_distance_function _); [|discriminate].
    destruct (forallb _ pts) eqn:E; [|discriminate].
    intros [= <-]. simpl. repeat split.
    apply Forall_forall. intros row Hin%list_elem_of_In.
    rewrite forallb_forall in E. specialize (E row Hin).
    apply Z.leb_le in E. lia.
  - destruct (match a_uuid args with Some _ => _ | None => _ end); [|discriminate].
    destruct (get_distance_function _); discriminate.
Qed.

(** What a MOI that the constructor returned guarantees: no stray
    keyword was given, the fields are the arguments, the points are what
    the setter stored, every row has at least two entries, and the
    distance function is the registered one. *)
Theorem init_ok (args : init_args) (m : MOI) :
  init args = Ok m ->
  a_kwargs args = [] /\
  uuid m = a_uuid args /\
  shape_type m = a_shape_type args /\
  offset m = a_offset args /\
  distance_threshold m = a_distance_threshold args /\
  angle_threshold m = a_angle_threshold args /\
  points_setter (a_points args) = Ok (Some (points m)) /\
  Forall (fun row => (2 <= length row)%nat) (points m) /\
  get_distance_function (a_distance_function args) = Ok (distance_function m).
Proof. apply init_returns. Qed.

(** With [points=None] the constructor never returns a MOI; when the
    colour and the distance function are found, the error is the
    [AttributeError] of the getter, whose attribute was never set. *)
Theorem init_without_points (args : init_args) :
  a_points args = PointsNone ->
  (forall m, init args <> Ok m) /\
  (a_kwargs args = [] -> a_uuid args = None ->
   (exists f, get_distance_function (a_distance_function args) = Ok f) ->
   init args = Raise AttributeError).
Proof.
  intros Hp. split.
  - intros m Hm. apply init_returns in Hm as (_ & _ & _ & _ & _ & _ & Hs & _).
    rewrite Hp in Hs. discriminate.
  - intros Hk Hu [f Hf]. unfold Moi.init. now rewrite Hk, Hp, Hu, Hf.
Qed.

(** Without a colour, a uuid that is no index of the palette (counting
    from the end when negative) makes the constructor raise
    [IndexError]. *)
Theorem init_uuid_outside_palette (args : init_args) (pts : option ndarray) (u : Z) :
  a_kwargs args = [] ->
  points_setter (a_points args) = Ok pts ->
  a_uuid args = Some u ->
  a_color args = None ->
  u < - Z.of_nat (length AppleRGB_values) \/ Z.of_nat (length AppleRGB_values) <= u ->
  init args = Raise IndexError.
Proof.
  intros Hk Hp Hu Hc Hout. unfold Moi.init.
  rewrite Hk, Hp, Hu, Hc, index_outside by assumption. reflexivity.
Qed.

Lemma load_loop_all (kwargs : list string) (data : list init_args) (ms : list MOI) :
  Forall2 (fun d m => init (add_kwargs kwargs d) = Ok m) data ms ->
  forall acc calls,
    load_loop kwargs data acc calls = ((calls + length data)%nat, Ok (acc ++ ms)%list).
Proof.
  induction 1 as [|d m data ms Hd _ IH]; intros acc calls; simpl.
  - now rewrite Nat.add_0_r, app_nil_r.
  - rewrite Hd, IH, <- app_assoc. simpl. f_equal. lia.
Qed.

Lemma load_loop_stops (kwargs : list string) (pre : list init_args) (ms : list MOI)
    (d : init_args) (post : list init_args) (e : exn) :
  Forall2 (fun d m => init (add_kwargs kwargs d) = Ok m) pre ms ->
  init (add_kwargs kwargs d) = Raise e ->
  forall acc calls,
    load_loop kwargs (pre ++ d :: post) acc calls = (S (calls + length pre), Raise e).
Proof.
  intros Hpre Hd. induction Hpre as [|d' m pre ms Hd' _ IH]; intros acc calls; simpl.
  - now rewrite Hd, Nat.add_0_r.
  - rewrite Hd', IH. f_equal. lia.
Qed.



End Loading.

Import Samples.

Local Abbreviation sample_init :=
  (Moi.init AppleRGB_WHITE AppleRGB_values get_distance_function).

Lemma init_ok_witness :
  exists m, sample_init two_point_args = Ok m /\
            Forall (fun row => (2 <= length row)%nat) (points m).
Proof.
  eexists. split; [reflexivity|].
  apply (init_ok AppleRGB_WHITE AppleRGB_values get_distance_function
           two_point_args _ eq_refl).
Defined.

Lemma init_without_points_witness :
  sample_init no_points_args = Raise AttributeError.
Proof.
  apply (init_without_points AppleRGB_WHITE AppleRGB_values get_distance_function
           no_points_args eq_refl); [reflexivity | reflexivity |].
  eexists. reflexivity.
Defined.

Lemma init_uuid_outside_palette_witness :
  sample_init uuid_9_args = Raise IndexError.
Proof.
  apply (init_uuid_outside_palette AppleRGB_WHITE AppleRGB_values
           get_distance_function uuid_9_args (Some [[0; 0]; [100; 0]]) 9);
    try reflexivity.
  right. simpl. lia.
Defined.



End LoadMore.

(** ** The video reader, continued *)

Module VideoMore.

Import Video.

Section Batches.

Variable frame : Type.

Local Abbreviation VideoReader := (Video.VideoReader frame).

(** The loop of [__next__], entered before the end of the video, appends
    the indices that follow the frame index, as many as there are turns
    but none from [num_frames] on. *)
Lemma next_loop_exact (n : nat) :
  forall (r : VideoReader) fi im,
    frame_idx frame r < num_frames frame r ->
    let out := next_loop frame n r fi im in
    fst (snd out)
    = (fi ++ seqZ (frame_idx frame r + 1)
               (Z.min (Z.of_nat n) (num_frames frame r - 1 - frame_idx frame r)))%list /\
    frame_idx frame (fst out)
    = frame_idx frame r + Z.min (Z.of_nat n) (num_frames frame r - frame_idx frame r) /\
    num_frames frame (fst out) = num_frames frame r /\
    batch_size frame (fst out) = batch_size frame r.
Proof.
  induction n as [|n IH]; intros r fi im Hlt.
  - simpl. rewrite seqZ_nil, app_nil_r by lia. repeat split. lia.
  - cbn [next_loop]. cbn [num_frames frame_idx set_frame_idx].
    destruct (num_frames frame r <=? frame_idx frame r + 1) eqn:E.
    + apply Z.leb_le in E. simpl. rewrite seqZ_nil, app_nil_r by lia.
      repeat split. lia.
    + apply Z.leb_gt in E.
      destruct (cap_read frame (cap frame (set_frame_idx frame r (frame_idx frame r + 1))))
        as [[ret image] c].
      destruct (IH (set_cap frame (set_frame_idx frame r (frame_idx frame r + 1)) c)
                  (fi ++ [frame_idx frame r + 1])%list (im ++ [image])%list)
        as (Hfi & Hidx & Hn & Hb); [simpl; lia|].
      cbn [frame_idx num_frames batch_size set_cap set_frame_idx fst snd] in *.
      rewrite Hfi, Hidx, <- app_assoc.
      split; [|split; [lia | split; assumption]].
      f_equal.
      rewrite (seqZ_cons (frame_idx frame r + 1)
                 (Z.min (Z.of_nat (S n))
                    (num_frames frame r - 1 - frame_idx frame r))) by lia.
      cbn [app]. f_equal. f_equal; lia.
Qed.

Lemma batches_exact (k : nat) :
  forall r : VideoReader,
    1 <= batch_size frame r ->
    (Z.to_nat (num_frames frame r - frame_idx frame r) <= k)%nat ->
    concat (map fst (batches frame k r))
    = seqZ (frame_idx frame r + 1) (num_frames frame r - 1 - frame_idx frame r) /\
    (length (batches frame k r) <= Z.to_nat (num_frames frame r - frame_idx frame r))%nat.
Proof.
  induction k as [|k IH]; intros r Hb Hk.
  - simpl. rewrite seqZ_nil by lia. split; [reflexivity | lia].
  - cbn [batches]. unfold next.
    destruct (num_frames frame r <=? frame_idx frame r) eqn:E.
    + apply Z.leb_le in E. simpl. rewrite seqZ_nil by lia. split; [reflexivity | lia].
    + apply Z.leb_gt in E.
      destruct (next_loop_exact (Z.to_nat (batch_size frame r)) r [] [] E)
        as (Hfi & Hidx & Hn & Hbs).
      destruct (next_loop frame (Z.to_nat (batch_size frame r)) r [] [])
        as [r' [fi im]].
      simpl in Hfi, Hidx, Hn, Hbs. rewrite Z2Nat.id in Hfi, Hidx by lia.
      destruct (IH r') as [Hrest Hlen]; [lia | lia |].
      cbn [map concat fst length]. rewrite Hrest, Hfi, Hidx, Hn. split; [|lia].
      destruct (Z_le_gt_dec (batch_size frame r) (num_frames frame r - 1 - frame_idx frame r))
        as [Hfull|Hshort].
      * rewrite !Z.min_l by lia.
        assert (Hsplit := seqZ_app (frame_idx frame r + 1) (batch_size frame r)
                  (num_frames frame r - 1 - (frame_idx frame r + batch_size frame r))
                  ltac:(lia) ltac:(lia)).
        replace (batch_size frame r
                 + (num_frames frame r - 1 - (frame_idx frame r + batch_size frame r)))
          with (num_frames frame r - 1 - frame_idx frame r) in Hsplit by lia.
        rewrite Hsplit. do 2 f_equal. lia.
      * rewrite (Z.min_r (batch_size frame r)
                   (num_frames frame r - 1 - frame_idx frame r)) by lia.
        rewrite (Z.min_r (batch_size frame r)
                   (num_frames frame r - frame_idx frame r)) by lia.
        rewrite (seqZ_nil (frame_idx frame r
                           + (num_frames frame r - frame_idx frame r) + 1)) by lia.
        apply app_nil_r.
Qed.


(** With [batch_size <= 0], before the end of the video, every call of
    [__next__] returns an empty batch and leaves the reader as it is: the
    iteration does not end. *)
Theorem batches_never_end (r : VideoReader) (calls : nat) :
  frame_idx frame r < num_frames frame r ->
  batch_size frame r <= 0 ->
  batches frame calls r = repeat ([], []) calls /\
  next frame r = (r, Ok ([], [])).
Proof.
  intros Hlt Hb.
  assert (Hnext : next frame r = (r, Ok ([], []))).
  { unfold next. apply Z.leb_gt in Hlt. rewrite Hlt.
    replace (Z.to_nat (batch_size frame r)) with O by lia. reflexivity. }
  split; [|assumption].
  induction calls as [|calls IH]; [reflexivity|].
  cbn [batches repeat]. now rewrite Hnext, IH.
Qed.

(** *** Which frame comes with which index *)

Lemma cap_read_spec (c : VideoCapture frame) :
  snd (fst (cap_read frame c)) = cap_frames frame c !! O /\
  cap_frames frame (snd (cap_read frame c)) = drop 1 (cap_frames frame c).
Proof.
  unfold cap_read. destruct (cap_frames frame c) as [|f fs] eqn:E; simpl.
  - now rewrite E.
  - split; [reflexivity | now rewrite drop_0].
Qed.

Lemma map_seq_add {A} (f : nat -> A) (m n : nat) :
  forall s, map (fun j => f (m + j)%nat) (seq s n) = map f (seq (m + s) n).
Proof.
  induction n as [|n IH]; intros s; [reflexivity|]. simpl.
  f_equal. rewrite IH. now rewrite Nat.add_succ_r.
Qed.

(** The loop of [__next__] reads the capture once for each index it
    appends, so the images appended are the next frames of the capture,
    [None] standing for a read past its end. *)
Lemma next_loop_images (n : nat) :
  forall (r : VideoReader) fi im,
    frame_idx frame r < num_frames frame r ->
    let out := next_loop frame n r fi im in
    let m := Z.to_nat (Z.min (Z.of_nat n) (num_frames frame r - 1 - frame_idx frame r)) in
    snd (snd out)
    = (im ++ map (fun j => cap_frames frame (cap frame r) !! j) (seq 0 m))%list /\
    cap_frames frame (cap frame (fst out)) = drop m (cap_frames frame (cap frame r)).
Proof.
  induction n as [|n IH]; intros r fi im Hlt.
  - cbv zeta. cbn [next_loop fst snd].
    replace (Z.to_nat _) with O by lia.
    cbn [seq map]. now rewrite app_nil_r, drop_0.
  - cbn [next_loop]. cbn [num_frames frame_idx set_frame_idx].
    destruct (num_frames frame r <=? frame_idx frame r + 1) eqn:E.
    + apply Z.leb_le in E. cbv zeta. cbn [fst snd cap set_frame_idx].
      replace (Z.to_nat _) with O by lia.
      cbn [seq map]. now rewrite app_nil_r, drop_0.
    + apply Z.leb_gt in E.
      destruct (cap_read_spec (cap frame (set_frame_idx frame r (frame_idx frame r + 1))))
        as [Himage Hrest].
      destruct (cap_read frame (cap frame (set_frame_idx frame r (frame_idx frame r + 1))))
        as [[ret image] c].
      cbn [fst snd cap set_frame_idx] in Himage, Hrest.
      destruct (IH (set_cap frame (set_frame_idx frame r (frame_idx frame r + 1)) c)
                  (fi ++ [frame_idx frame r + 1])%list (im ++ [image])%list)
        as [Him Hcap]; [simpl; lia|].
      cbv zeta in *.
      cbn [frame_idx num_frames cap set_cap set_frame_idx fst snd] in *.
      replace (Z.to_nat (Z.min (Z.of_nat (S n))
                           (num_frames frame r - 1 - frame_idx frame r)))
        with (S (Z.to_nat (Z.min (Z.of_nat n)
                             (num_frames frame r - 1 - (frame_idx frame r + 1)))))
        by lia.
      rewrite Him, Hcap, Hrest, Himage, drop_drop, <- app_assoc.
      split; [|reflexivity].
      f_equal. cbn [seq map app]. f_equal.
      rewrite <- (map_seq_add (fun j => cap_frames frame (cap frame r) !! j) 1 _ 0).
      apply map_ext. intros j. now rewrite lookup_drop.
Qed.

Lemma batches_images (k : nat) :
  forall r : VideoReader,
    1 <= batch_size frame r ->
    (Z.to_nat (num_frames frame r - frame_idx frame r) <= k)%nat ->
    concat (map snd (batches frame k r))
    = map (fun j => cap_frames frame (cap frame r) !! j)
          (seq 0 (Z.to_nat (num_frames frame r - 1 - frame_idx frame r))).
Proof.
  induction k as [|k IH]; intros r Hb Hk.
  - simpl. now replace (Z.to_nat _) with O by lia.
  - cbn [batches]. unfold next.
    destruct (num_frames frame r <=? frame_idx frame r) eqn:E.
    + apply Z.leb_le in E. simpl. now replace (Z.to_nat _) with O by lia.
    + apply Z.leb_gt in E.
      destruct (next_loop_exact (Z.to_nat (batch_size frame r)) r [] [] E)
        as (_ & Hidx & Hn & Hbs).
      destruct (next_loop_images (Z.to_nat (batch_size frame r)) r [] [] E)
        as (Him & Hcap).
      destruct (next_loop frame (Z.to_nat (batch_size frame r)) r [] [])
        as [r' [fi im]].
      cbv zeta in *. cbn [fst snd app] in *.
      rewrite Z2Nat.id in Hidx, Him, Hcap by lia.
      cbn [map concat snd]. rewrite IH by lia.
      rewrite Him, Hcap, Hidx, Hn.
      set (m := Z.to_nat (Z.min (batch_size frame r)
                            (num_frames frame r - 1 - frame_idx frame r))).
      replace (Z.to_nat (num_frames frame r - 1 - frame_idx frame r))
        with (m + Z.to_nat (num_frames frame r - 1
                            - (frame_idx frame r
                               + Z.min (batch_size frame r)
                                   (num_frames frame r - frame_idx frame r))))%nat
        by (subst m; lia).
      rewrite seq_app, map_app. f_equal.
      transitivity
        (map (fun j => cap_frames frame (cap frame r) !! (m + j)%nat)
             (seq 0 (Z.to_nat (num_frames frame r - 1
                               - (frame_idx frame r
                                  + Z.min (batch_size frame r)
                                      (num_frames frame r - frame_idx frame r)))))).
      * apply map_ext. intros j. now rewrite lookup_drop.
      * etransitivity;
          [apply (map_seq_add (fun j => cap_frames frame (cap frame r) !! j) m _ O)|].
        do 2 f_equal. lia.
Qed.


End Batches.

Section Opening.

Variable frame : Type.
Variable data_dir : string.
Variable is_video_file : string -> bool.
Variable is_video_stream : string -> bool.
Variable cv2_VideoCapture : string -> VideoCapture frame.

Local Abbreviation init :=
  (Video.init frame data_dir is_video_file is_video_stream cv2_VideoCapture).

(** A stream that is given is the only source tried: when it is no
    valid stream the constructor raises [FileNotFoundError], whether or
    not a dataset and a video file are given too.  Without a stream and
    without a file it raises [IOError]. *)
Theorem init_no_fallback
    (dataset file : option string) (s : string) (dims : Z * Z * Z)
    (frame_rate : Q) (bs : Z) :
  s <> ""%string ->
  is_video_stream s = false ->
  init dataset file (Some s) dims frame_rate bs = Raise FileNotFoundError /\
  (truthy file = false ->
   init dataset file None dims frame_rate bs = Raise IOError /\
   init dataset file (Some ""%string) dims frame_rate bs = Raise IOError).
Proof.
  intros Hs Hbad. split.
  - unfold Video.init, create_online_stream. destruct s as [|a s]; [contradiction|].
    now rewrite Hbad.
  - intros Hfile. unfold Video.init.
    destruct file as [[|a f]|]; [| discriminate |]; split; reflexivity.
Qed.

End Opening.

Import Samples.


Lemma init_no_fallback_witness :
  Video.init nat data_dir is_video_file is_video_stream capture_of
    (Some "aicity2021") (Some "cam_1.mp4") (Some "cam_1.mp4") (3, 1920, 1080) 10 2
  = Raise FileNotFoundError.
Proof.
  apply (init_no_fallback nat data_dir is_video_file is_video_stream capture_of
           (Some "aicity2021") (Some "cam_1.mp4") "cam_1.mp4" (3, 1920, 1080) 10 2).
  - discriminate.
  - reflexivity.
Defined.


Lemma batches_never_end_witness :
  batches nat 3 stuck_reader = [([], []); ([], []); ([], [])] /\
  next nat stuck_reader = (stuck_reader, Ok ([], [])).
Proof.
  apply (batches_never_end nat stuck_reader 3); simpl; lia.
Defined.

End VideoMore.

(** ** The image reader, continued *)

Module ImageMore.

Import Image.

Section Reader.

Variable image : Type.
Variable glob_glob : string -> list string.
Variable is_image_file : string -> bool.
Variable cv2_imread : string -> image.

Local Abbreviation ImageReader := Image.ImageReader.
Local Abbreviation init := (Image.init glob_glob is_image_file).
Local Abbreviation next_loop := (Image.next_loop image cv2_imread).
Local Abbreviation next := (Image.next image cv2_imread).
Local Abbreviation iterate := (Image.iterate image cv2_imread).
Local Abbreviation counted r := (number_of_frame r = Z.of_nat (length (images r))).

(** Short of the last image, [n] turns of the loop read at the [n]
    indices after the frame index, which are also the frame ids
    returned. *)
Lemma next_loop_ok_exact (n : nat) :
  forall (r : ImageReader) imgs fids reads i,
    counted r -> frame_idx r = Some i -> 0 <= i ->
    i + Z.of_nat n < number_of_frame r ->
    exists r' imgs',
      next_loop n r imgs fids reads
      = (r', (reads ++ seqZ (i + 1) (Z.of_nat n))%list,
         Ok (imgs', (fids ++ seqZ (i + 1) (Z.of_nat n))%list)) /\
      frame_idx r' = Some (i + Z.of_nat n) /\
      images r' = images r /\
      number_of_frame r' = number_of_frame r /\
      batch_size r' = batch_size r.
Proof.
  induction n as [|n IH]; intros r imgs fids reads i Hc Hi H0 Hn.
  - exists r, imgs. simpl. rewrite !app_nil_r, Z.add_0_r. repeat split. assumption.
  - cbn [Image.next_loop]. rewrite Hi.
    assert (E : (i <? number_of_frame r) = true) by (apply Z.ltb_lt; lia).
    rewrite E. cbn [images set_frame_idx].
    destruct (ImageFacts.index_in_range (images r) (i + 1)) as [path Hpath];
      [rewrite <- Hc; lia|].
    rewrite Hpath.
    destruct (IH (set_frame_idx r (i + 1)) (imgs ++ [cv2_imread path])%list
                (fids ++ [i + 1])%list (reads ++ [i + 1])%list (i + 1))
      as (r' & imgs' & Hloop & Hidx & Him & Hnum & Hbs);
      [assumption | reflexivity | lia | simpl; lia |].
    exists r', imgs'. rewrite Hloop, <- !app_assoc.
    rewrite (seqZ_cons (i + 1) (Z.of_nat (S n))) by lia.
    replace (Z.pred (Z.of_nat (S n))) with (Z.of_nat n) by lia.
    replace (Z.succ (i + 1)) with (i + 1 + 1) by lia.
    cbn [app]. repeat split; try assumption.
    rewrite Hidx. f_equal. lia.
Qed.

(** Reaching the last image, the loop reads at the indices after the
    frame index up to [number_of_frame] and raises on the last one. *)
Lemma next_loop_raises_exact (n : nat) :
  forall (r : ImageReader) imgs fids reads i,
    counted r -> frame_idx r = Some i -> 0 <= i < number_of_frame r ->
    number_of_frame r <= i + Z.of_nat n ->
    exists r',
      next_loop n r imgs fids reads
      = (r', (reads ++ seqZ (i + 1) (number_of_frame r - i))%list, Raise IndexError).
Proof.
  induction n as [|n IH]; intros r imgs fids reads i Hc Hi H0 Hn; [lia|].
  cbn [Image.next_loop]. rewrite Hi.
  assert (E : (i <? number_of_frame r) = true) by (apply Z.ltb_lt; lia).
  rewrite E. cbn [images set_frame_idx].
  rewrite (seqZ_cons (i + 1) (number_of_frame r - i)) by lia.
  destruct (Z.eq_dec (i + 1) (number_of_frame r)) as [Hlast|Hmore].
  - rewrite ImageFacts.index_past_end by (rewrite <- Hc; lia).
    exists (set_frame_idx r (i + 1)).
    rewrite (seqZ_nil _ (Z.pred _)) by lia. reflexivity.
  - destruct (ImageFacts.index_in_range (images r) (i + 1)) as [path Hpath];
      [rewrite <- Hc; lia|].
    rewrite Hpath.
    destruct (IH (set_frame_idx r (i + 1)) (imgs ++ [cv2_imread path])%list
                (fids ++ [i + 1])%list (reads ++ [i + 1])%list (i + 1))
      as (r' & Hloop); [assumption | reflexivity | simpl; lia | simpl; lia |].
    exists r'. rewrite Hloop, <- app_assoc. cbn [number_of_frame set_frame_idx app].
    replace (Z.succ (i + 1)) with (i + 1 + 1) by lia.
    replace (Z.pred (number_of_frame r - i)) with (number_of_frame r - (i + 1)) by lia.
    reflexivity.
Qed.

Lemma iterate_exact (k : nat) :
  forall (r : ImageReader) i,
    counted r -> frame_idx r = Some i -> 0 <= i < number_of_frame r ->
    1 <= batch_size r ->
    (Z.to_nat (number_of_frame r - i) <= k)%nat ->
    exists calls,
      (calls <= k)%nat /\
      iterate calls r = (seqZ (i + 1) (number_of_frame r - i), Some IndexError).
Proof.
  induction k as [|k IH]; intros r i Hc Hi H0 Hbs Hk; [lia|].
  destruct (Z_le_gt_dec (number_of_frame r) (i + Z.of_nat (Z.to_nat (batch_size r))))
    as [Hend|Hmore].
  - destruct (next_loop_raises_exact (Z.to_nat (batch_size r)) r [] [] [] i)
      as (r' & Hloop); [assumption..|].
    exists 1%nat. split; [lia|]. simpl. unfold Image.next. now rewrite Hloop.
  - destruct (next_loop_ok_exact (Z.to_nat (batch_size r)) r [] [] [] i)
      as (r' & imgs' & Hloop & Hidx & Him & Hnum & Hb);
      [assumption | assumption | lia | lia |].
    destruct (IH r' (i + Z.of_nat (Z.to_nat (batch_size r))))
      as (calls & Hcalls & Hit).
    { now rewrite Hnum, Him. }
    { assumption. }
    { rewrite Hnum. lia. }
    { now rewrite Hb. }
    { rewrite Hnum. lia. }
    exists (S calls). split; [lia|]. simpl. unfold Image.next.
    rewrite Hloop, Hit, Hnum. cbn [app]. f_equal.
    rewrite Z2Nat.id by lia.
    assert (Hsplit := seqZ_app (i + 1) (batch_size r)
              (number_of_frame r - (i + batch_size r)) ltac:(lia) ltac:(lia)).
    replace (batch_size r + (number_of_frame r - (i + batch_size r)))
      with (number_of_frame r - i) in Hsplit by lia.
    rewrite Hsplit. do 2 f_equal. lia.
Qed.

(** For a reader over [N >= 1] images and [batch_size >= 1], the
    iteration reads [self.images] at the indices [1, 2, ..., N], in this
    order, and the read at [N] ends it with [IndexError], within [N] calls
    of [__next__]. *)
Theorem image_reader_reads (filename dirname : option string) (bs : Z) (r : ImageReader) :
  init filename dirname bs = Ok r ->
  images r <> [] ->
  1 <= bs ->
  exists calls,
    (calls <= length (images r))%nat /\
    iterate calls (iter r)
    = (seqZ 1 (Z.of_nat (length (images r))), Some IndexError).
Proof.
  intros [Hc Hbs]%ImageFacts.init_counted Hne Hb.
  destruct (iterate_exact (length (images r)) (iter r) 0)
    as (calls & Hcalls & Hit).
  - exact Hc.
  - reflexivity.
  - simpl. rewrite Hc. destruct (images r); [contradiction | simpl; lia].
  - simpl. lia.
  - simpl. lia.
  - exists calls. split; [assumption|].
    rewrite Hit. simpl. now rewrite Z.sub_0_r, Hc.
Qed.

(** The loop does nothing once the frame index has reached
    [number_of_frame]. *)
Lemma next_loop_done (n : nat) (r : ImageReader) imgs fids reads i :
  frame_idx r = Some i -> number_of_frame r <= i ->
  next_loop n r imgs fids reads = (r, reads, Ok (imgs, fids)).
Proof.
  intros Hi Hn. induction n as [|n IH]; [reflexivity|].
  cbn [Image.next_loop]. rewrite Hi.
  assert (E : (i <? number_of_frame r) = false) by (apply Z.ltb_ge; lia).
  now rewrite E.
Qed.

(** Over a folder without images, [__next__] returns an empty batch at
    every call and never raises: [StopIteration] is not raised, and a
    [for] loop over the reader does not end. *)
Theorem image_reader_empty (filename dirname : option string) (bs : Z)
    (r : ImageReader) (calls : nat) :
  init filename dirname bs = Ok r ->
  images r = [] ->
  next (iter r) = (iter r, [], Ok ([], [])) /\
  iterate calls (iter r) = ([], None).
Proof.
  intros [Hc Hbs]%ImageFacts.init_counted Hnil.
  assert (Hnext : next (iter r) = (iter r, [], Ok ([], []))).
  { unfold Image.next. apply next_loop_done with (i := 0); [reflexivity|].
    simpl. rewrite Hc, Hnil. simpl. lia. }
  split; [assumption|].
  induction calls as [|calls IH]; [reflexivity|].
  cbn [Image.iterate]. now rewrite Hnext, IH.
Qed.

(** A reader on which [__iter__] was not called has no [frame_idx]:
    with [batch_size >= 1] its [__next__] raises [AttributeError]. *)
Theorem image_reader_next_before_iter
    (filename dirname : option string) (bs : Z) (r : ImageReader) :
  init filename dirname bs = Ok r ->
  1 <= bs ->
  next r = (r, [], Raise AttributeError).
Proof.
  unfold Image.init. destruct dirname; [|destruct filename; discriminate].
  intros [= <-] Hb. unfold Image.next. cbn [batch_size].
  destruct (Z.to_nat bs) eqn:E; [lia | reflexivity].
Qed.

End Reader.

Import Samples.

Lemma image_reader_reads_witness :
  exists r calls,
    Image.init glob_glob is_image_file None (Some "/imgs") 1 = Ok r /\
    (calls <= 2)%nat /\
    Image.iterate string cv2_imread calls (iter r) = ([1; 2], Some IndexError).
Proof.
  eexists.
  destruct (image_reader_reads string glob_glob is_image_file cv2_imread
              None (Some "/imgs") 1 _ eq_refl ltac:(discriminate) ltac:(lia))
    as (calls & Hcalls & Hit).
  exists calls. split; [reflexivity|]. split; assumption.
Defined.

Lemma image_reader_empty_witness :
  exists r,
    Image.init glob_glob (fun _ => false) None (Some "/imgs") 4 = Ok r /\
    Image.iterate string cv2_imread 3 (iter r) = ([], None).
Proof.
  eexists. split; [reflexivity|].
  apply (image_reader_empty string glob_glob (fun _ => false) cv2_imread
           None (Some "/imgs") 4 _ 3 eq_refl eq_refl).
Defined.

Lemma image_reader_next_before_iter_witness :
  exists r,
    Image.init glob_glob is_image_file None (Some "/imgs") 4 = Ok r /\
    Image.next string cv2_imread r = (r, [], Raise AttributeError).
Proof.
  eexists. split; [reflexivity|].
  apply (image_reader_next_before_iter string glob_glob is_image_file cv2_imread
           None (Some "/imgs") 4 _ eq_refl). lia.
Defined.

End ImageMore.

(** ** The image writer *)

Module ImageOutFacts.

Import ImageOut.

(** The characters of a string. *)
Local Abbreviation chars s := (list_ascii_of_string s).

Lemma replace_char_gone (a b : ascii) (s : string) :
  a <> b -> ~ In a (chars (replace_char a b s)).
Proof.
  intros Hab. induction s as [|c s IH]; simpl; [tauto|].
  intros [Hc|Hin]; [|contradiction].
  destruct (Ascii.eqb c a) eqn:E; [congruence|].
  apply Ascii.eqb_neq in E. congruence.
Qed.

Lemma split_char_cons (sep : ascii) (s : string) :
  exists h t, split_char sep s = h :: t.
Proof.
  induction s as [|c s (h & t & IH)]; simpl; [eauto|].
  destruct (Ascii.eqb c sep); [eauto|]. rewrite IH. eauto.
Qed.

(** A part of a split contains no separator, and only characters of the
    string that was split. *)
Lemma split_char_parts (sep : ascii) (s part : string) :
  In part (split_char sep s) ->
  ~ In sep (chars part) /\ forall c, In c (chars part) -> In c (chars s).
Proof.
  revert part. induction s as [|c s IH]; intros part; simpl.
  - intros [<-|[]]. simpl. tauto.
  - destruct (Ascii.eqb c sep) eqn:E.
    + intros [<-|Hin]; [simpl; tauto|].
      destruct (IH part Hin) as [Hno Hsub]. split; [assumption | auto].
    + apply Ascii.eqb_neq in E.
      destruct (split_char_cons sep s) as (h & t & Hs). rewrite Hs in *.
      intros [<-|Hin].
      * destruct (IH h (or_introl eq_refl)) as [Hno Hsub]. simpl. split.
        -- intros [Hc|Hh]; [congruence | contradiction].
        -- intros c' [<-|Hc']; [now left | right; auto].
      * destruct (IH part (or_intror Hin)) as [Hno Hsub]. split; [assumption | auto].
Qed.

Lemma index_last {A} (l : list A) :
  l <> [] -> exists a, index l (-1) = Ok a /\ In a l.
Proof.
  intros Hne. unfold index. cbv zeta.
  change (0 <=? -1) with false. cbv iota.
  assert (Hlen : (0 < length l)%nat) by (destruct l; [contradiction | simpl; lia]).
  assert (E0 : (0 <=? Z.of_nat (length l) + -1) = true) by (apply Z.leb_le; lia).
  assert (En : (Z.of_nat (length l) + -1 <? Z.of_nat (length l)) = true)
    by (apply Z.ltb_lt; lia).
  rewrite E0, En. simpl.
  destruct (lookup_lt_is_Some_2 l (Z.to_nat (Z.of_nat (length l) + -1))) as [a Ha];
    [lia|].
  rewrite Ha. exists a. split; [reflexivity|].
  apply list_elem_of_In, list_elem_of_lookup. eauto.
Qed.

(** Without stray keywords the constructor always returns a writer
    that has written nothing; its [image_name] contains neither a slash
    nor a backslash, and only characters of the directory, backslashes
    read as slashes. *)
Theorem init_image_name (out ext : string) :
  exists w,
    init out ext [] = Ok w /\
    output_dir w = out /\ extension w = ext /\ len w = 0 /\
    ~ In "/"%char (chars (image_name w)) /\
    ~ In "\"%char (chars (image_name w)) /\
    forall c, In c (chars (image_name w)) ->
              In c (chars (replace_char "\" "/" out)).
Proof.
  unfold init.
  destruct (index_last (split_char "/" (replace_char "\" "/" out)))
    as (part & Hidx & Hin).
  { destruct (split_char_cons "/" (replace_char "\" "/" out)) as (h & t & ->).
    discriminate. }
  rewrite Hidx. cbn [mbind result_bind]. eexists. split; [reflexivity|].
  cbn [output_dir extension image_name len frame_idx].
  destruct (split_char_parts _ _ _ Hin) as [Hno Hsub].
  repeat split; try assumption.
  intros Hb. apply Hsub in Hb. revert Hb. now apply replace_char_gone.
Qed.

Section Writer.

Variable image : Type.
Variable is_channel_last : image -> result bool.
Variable image_channel_last : image -> result image.
Variable cv2_imwrite : image -> string -> result unit.

Local Abbreviation write_one :=
  (ImageOut.write_one image is_channel_last image_channel_last cv2_imwrite).
Local Abbreviation write_frame :=
  (ImageOut.write_frame image is_channel_last image_channel_last cv2_imwrite).

Lemma write_one_path (w : ImageWriter) (img : image) (call : image * string) :
  write_one w img = Ok call ->
  snd call = os_path_join (output_dir w) [(image_name w ++ extension w)%string].
Proof.
  unfold ImageOut.write_one.
  destruct (is_channel_last img) as [[|]|]; cbn [mbind result_bind]; try discriminate.
  - destruct (cv2_imwrite img _); cbn [mbind result_bind]; [|discriminate].
    now intros [= <-].
  - destruct (image_channel_last img) as [img'|]; cbn [mbind result_bind]; [|discriminate].
    destruct (cv2_imwrite img' _); cbn [mbind result_bind]; [|discriminate].
    now intros [= <-].
Qed.


End Writer.

End ImageOutFacts.

(** ** Labels *)

Module LabelFacts.

Import Label.

(** *** [get_label] *)

Section GetLabel.

Variable name_ : option string.
Variable id_ train_id_ : option Z.

(** The label answers one of the three queries. *)
Local Abbreviation hit l :=
  (same String.eqb name_ (name l) || same Z.eqb id_ (id l)
   || same Z.eqb train_id_ (train_id l)).

Lemma get_label_cons (l : label) (rest : list label) :
  get_label (l :: rest) name_ id_ train_id_
  = if hit l then Some l else get_label rest name_ id_ train_id_.
Proof.
  simpl. destruct (same String.eqb name_ (name l)); [reflexivity|].
  destruct (same Z.eqb id_ (id l)); [reflexivity|].
  now destruct (same Z.eqb train_id_ (train_id l)).
Qed.

(** [get_label] returns the first label of the list that has the
    given name, or the given id, or the given train id (one of them is
    enough), and [None] when no label has any of them. *)
Theorem get_label_first (labels : list label) :
  (exists pre l post,
     labels = pre ++ l :: post /\
     Forall (fun l' => hit l' = false) pre /\
     hit l = true /\
     get_label labels name_ id_ train_id_ = Some l)
  \/ (Forall (fun l => hit l = false) labels /\
      get_label labels name_ id_ train_id_ = None).
Proof.
  induction labels as [|x labels IH].
  - right. split; [constructor | reflexivity].
  - rewrite get_label_cons. destruct (hit x) eqn:E.
    + left. exists [], x, labels.
      split; [reflexivity|]. split; [constructor|]. split; [assumption | reflexivity].
    + destruct IH as [(pre & l & post & -> & Hpre & Hl & Hget) | [Hall Hget]].
      * left. exists (x :: pre), l, post.
        split; [reflexivity|]. split; [now constructor|]. split; assumption.
      * right. split; [now constructor | assumption].
Qed.

End GetLabel.

(** Without a name, an id and a train id, [get_label] returns [None]
    for every list; a query given as [None] is never compared, so a label
    whose key holds [None] is not found by it. *)
Theorem get_label_no_query (labels : list label) :
  get_label labels None None None = None.
Proof.
  induction labels as [|l labels IH]; [reflexivity | exact IH].
Qed.

(** *** The dicts of [get_majority_label] *)

Lemma key_eqb_eq (a b : option Z) : key_eqb a b = true <-> a = b.
Proof.
  destruct a as [x|], b as [y|]; simpl; try (split; [discriminate | congruence]).
  - rewrite Z.eqb_eq. split; congruence.
  - tauto.
Qed.

Lemma key_eqb_refl (a : option Z) : key_eqb a a = true.
Proof. now apply key_eqb_eq. Qed.

Lemma key_eqb_neq (a b : option Z) : key_eqb a b = false <-> a <> b.
Proof.
  rewrite <- key_eqb_eq. destruct (key_eqb a b); split; congruence.
Qed.

(** Reading a dict after a write. *)
Lemma dict_get_set {V} (d : dict V) (k k' : option Z) (v : V) :
  dict_get (dict_set d k v) k' = if key_eqb k k' then Some v else dict_get d k'.
Proof.
  induction d as [|[k0 v0] d IH]; simpl.
  - reflexivity.
  - destruct (key_eqb k0 k) eqn:E0; simpl.
    + apply key_eqb_eq in E0 as ->. now destruct (key_eqb k k').
    + rewrite IH. destruct (key_eqb k0 k') eqn:E1; [|reflexivity].
      destruct (key_eqb k k') eqn:E2; [|reflexivity].
      apply key_eqb_eq in E1, E2. subst.
      rewrite key_eqb_refl in E0. discriminate.
Qed.

Lemma dict_get_key {V} (d : dict V) (k : option Z) :
  In k (map fst d) -> exists v, dict_get d k = Some v.
Proof.
  induction d as [|[k0 v0] d IH]; simpl; [tauto|].
  intros [->|Hin].
  - rewrite key_eqb_refl. eauto.
  - destruct (key_eqb k0 k); [eauto | auto].
Qed.

Lemma dict_key_get {V} (d : dict V) (k : option Z) (v : V) :
  dict_get d k = Some v -> In k (map fst d).
Proof.
  induction d as [|[k0 v0] d IH]; simpl; [discriminate|].
  destruct (key_eqb k0 k) eqn:E.
  - apply key_eqb_eq in E. now left.
  - right. auto.
Qed.

(** The key that [max] returns is a key of the dict of greatest value. *)
Lemma max_from_greatest (f : option Z -> Z) (rest : list (option Z)) :
  forall best,
    let k := max_from f best rest in
    In k (best :: rest) /\ forall k', In k' (best :: rest) -> f k' <= f k.
Proof.
  induction rest as [|x rest IH]; intros best; simpl.
  - split; [now left|]. intros k' [<-|[]]. lia.
  - destruct (IH (if f best <? f x then x else best)) as [Hin Hmax].
    split.
    + destruct Hin as [Hin|Hin]; [|now right; right].
      rewrite <- Hin. destruct (f best <? f x); [right; now left | now left].
    + intros k' Hk'.
      assert (Hstep : f best <= f (if f best <? f x then x else best) /\
                      f x <= f (if f best <? f x then x else best)).
      { destruct (f best <? f x) eqn:E;
          [apply Z.ltb_lt in E | apply Z.ltb_ge in E]; lia. }
      destruct Hstep as [Hb Hx].
      specialize (Hmax _ (or_introl eq_refl)) as Hcur.
      destruct Hk' as [<-|[<-|Hk']]; [lia | lia |].
      apply Hmax. now right.
Qed.

(** The key that [max] returns is the first one of greatest value:
    the keys before it have a smaller value, the keys after it none
    greater. *)
Lemma max_from_first (f : option Z -> Z) (rest : list (option Z)) :
  forall best s1 s2,
    (forall k, In k s1 -> f k < f best) ->
    (forall k, In k s2 -> f k <= f best) ->
    exists t1 t2,
      (s1 ++ best :: s2) ++ rest = t1 ++ max_from f best rest :: t2 /\
      (forall k, In k t1 -> f k < f (max_from f best rest)) /\
      (forall k, In k t2 -> f k <= f (max_from f best rest)).
Proof.
  induction rest as [|x rest IH]; intros best s1 s2 H1 H2; simpl.
  - exists s1, s2. rewrite app_nil_r. split; [reflexivity | split; assumption].
  - destruct (f best <? f x) eqn:E.
    + apply Z.ltb_lt in E.
      destruct (IH x (s1 ++ best :: s2) []) as (t1 & t2 & Heq & Ht1 & Ht2).
      * intros k [Hk|[<-|Hk]]%in_app_or; [specialize (H1 k Hk) | | specialize (H2 k Hk)]; lia.
      * intros k [].
      * exists t1, t2. split; [|split; assumption].
        rewrite <- Heq. repeat (rewrite <- app_assoc; simpl). reflexivity.
    + apply Z.ltb_ge in E.
      destruct (IH best s1 (s2 ++ [x])) as (t1 & t2 & Heq & Ht1 & Ht2).
      * assumption.
      * intros k [Hk|[<-|[]]]%in_app_or; [now apply H2 | assumption].
      * exists t1, t2. split; [|split; assumption].
        rewrite <- Heq. repeat (rewrite <- app_assoc; simpl). reflexivity.
Qed.

Lemma dict_set_keys_old {V} (d : dict V) (k : option Z) (v : V) :
  In k (map fst d) -> map fst (dict_set d k v) = map fst d.
Proof.
  induction d as [|[k0 v0] d IH]; simpl; [tauto|].
  intros Hin. destruct (key_eqb k0 k) eqn:E; [reflexivity|].
  simpl. f_equal. apply IH. destruct Hin as [->|Hin]; [|assumption].
  rewrite key_eqb_refl in E. discriminate.
Qed.

Lemma dict_set_keys_new {V} (d : dict V) (k : option Z) (v : V) :
  ~ In k (map fst d) -> map fst (dict_set d k v) = (map fst d ++ [k])%list.
Proof.
  induction d as [|[k0 v0] d IH]; simpl; [reflexivity|].
  intros Hout. destruct (key_eqb k0 k) eqn:E.
  - apply key_eqb_eq in E. tauto.
  - simpl. f_equal. apply IH. tauto.
Qed.

(** *** Counting *)

Lemma count_id_snoc (k kx : option Z) (p : list label) (x : label) :
  id x = Some kx ->
  count_id k (p ++ [x]) = (count_id k p + if key_eqb kx k then 1 else 0)%nat.
Proof.
  intros Hx. unfold count_id. rewrite List.filter_app, length_app. simpl.
  rewrite Hx. now destruct (key_eqb kx k).
Qed.

Lemma count_id_extend (k : option Z) (p : list label) (x : label) :
  (count_id k p <= count_id k (p ++ [x]))%nat.
Proof.
  unfold count_id. rewrite List.filter_app, length_app. lia.
Qed.

Lemma votes_app (st : dict label * dict Z) (p q : list label) :
  votes st (p ++ q) = (st' ← votes st p; votes st' q).
Proof.
  revert st. induction p as [|l p IH]; intros st; simpl; [reflexivity|].
  destruct (vote st l); simpl; [apply IH | reflexivity].
Qed.

(** The two dicts after the counting loop over the labels [p], all of
    which have an id: [label_voting] holds the number of labels of each
    id; its keys are the ids of [p]; and for each key, [unique_labels]
    holds a label of that id before which only labels of earlier keys
    come. *)
Lemma votes_inv (p : list label) :
  Forall (fun l => id l <> None) p ->
  exists U V,
    votes ([], []) p = Ok (U, V) /\
    (forall k, dict_get V k
               = match count_id k p with
                 | O => None
                 | S _ => Some (Z.of_nat (count_id k p))
                 end) /\
    (forall l, In l p -> exists k, id l = Some k /\ In k (map fst V)) /\
    (forall ks1 k ks2, map fst V = (ks1 ++ k :: ks2)%list ->
       exists a l b,
         p = (a ++ l :: b)%list /\ id l = Some k /\ dict_get U k = Some l /\
         forall l', In l' a -> exists k', id l' = Some k' /\ In k' ks1).
Proof.
  induction p as [|x p IH] using rev_ind; intros Hall.
  - exists [], []. split; [reflexivity|]. split; [reflexivity|].
    split; [intros l []|]. intros ks1 k ks2 H. now destruct ks1.
  - apply Forall_app in Hall as [Hp Hx].
    apply Forall_inv in Hx.
    destruct (id x) as [kx|] eqn:Hkx; [clear Hx | contradiction].
    destruct (IH Hp) as (U & V & Hvotes & HC & HM & HE). clear IH.
    rewrite votes_app, Hvotes. cbn [mbind result_bind votes]. unfold vote.
    rewrite Hkx, (HC kx).
    destruct (count_id kx p) as [|c] eqn:Hcount.
    + (* a new id *)
      assert (Hnew : ~ In kx (map fst V)).
      { intros [v Hv]%dict_get_key. rewrite (HC kx), Hcount in Hv. discriminate. }
      eexists _, _. split; [reflexivity|]. split; [|split].
      * intros k. rewrite dict_get_set, (count_id_snoc k kx p x Hkx), (HC k).
        destruct (key_eqb kx k) eqn:E.
        -- apply key_eqb_eq in E as <-. now rewrite Hcount.
        -- rewrite Nat.add_0_r. reflexivity.
      * rewrite (dict_set_keys_new V kx 1 Hnew).
        intros l [Hl|[<-|[]]]%in_app_or.
        -- destruct (HM l Hl) as (k & Hk & Hin). exists k.
           split; [assumption | apply in_or_app; now left].
        -- exists kx. split; [assumption | apply in_or_app; right; now left].
      * rewrite (dict_set_keys_new V kx 1 Hnew). intros ks1 k ks2 Hkeys.
        destruct ks2 as [|y ks2 _] using rev_ind.
        -- apply app_inj_tail in Hkeys as [Hks <-].
           exists p, x, []. split; [reflexivity|]. split; [assumption|].
           split; [now rewrite dict_get_set, key_eqb_refl|].
           intros l' Hl'. rewrite <- Hks. now apply HM.
        -- change (ks1 ++ k :: ks2 ++ [y])%list with (ks1 ++ (k :: ks2) ++ [y])%list in Hkeys.
           rewrite app_assoc in Hkeys.
           apply app_inj_tail in Hkeys as [Hks <-].
           destruct (HE ks1 k ks2 Hks) as (a & l & b & -> & Hl & Hget & Hbefore).
           exists a, l, (b ++ [x])%list.
           split; [now rewrite <- app_assoc|]. split; [assumption|].
           split; [|assumption].
           rewrite dict_get_set.
           destruct (key_eqb kx k) eqn:E; [|assumption].
           apply key_eqb_eq in E as <-. exfalso. apply Hnew.
           rewrite Hks. apply in_or_app. right. now left.
    + (* an id seen before *)
      assert (E0 : (Z.of_nat (S c) =? 0) = false) by (apply Z.eqb_neq; lia).
      rewrite E0.
      assert (Hold : In kx (map fst V)).
      { apply dict_key_get with (v := Z.of_nat (S c)). now rewrite (HC kx), Hcount. }
      eexists _, _. split; [reflexivity|]. split; [|split].
      * intros k. rewrite dict_get_set, (count_id_snoc k kx p x Hkx), (HC k).
        destruct (key_eqb kx k) eqn:E.
        -- apply key_eqb_eq in E as <-. rewrite Hcount.
           replace (S c + 1)%nat with (S (S c)) by lia. f_equal. lia.
        -- rewrite Nat.add_0_r. reflexivity.
      * rewrite (dict_set_keys_old V kx _ Hold).
        intros l [Hl|[<-|[]]]%in_app_or; [now apply HM|].
        exists kx. split; assumption.
      * rewrite (dict_set_keys_old V kx _ Hold). intros ks1 k ks2 Hkeys.
        destruct (HE ks1 k ks2 Hkeys) as (a & l & b & -> & Hl & Hget & Hbefore).
        exists a, l, (b ++ [x])%list.
        split; [now rewrite <- app_assoc|]. split; [assumption|].
        split; assumption.
Qed.

(** *** [get_majority_label] *)

(** For a non-empty list of labels that all have an id,
    [get_majority_label] returns the first label of the list that has the
    most frequent id: no id occurs more often than its id, every label
    before it has an id that occurs strictly less often, so that of two
    ids that occur equally often the one seen first wins. *)
Theorem get_majority_label_first_most (labels : list label) :
  Forall (fun l => id l <> None) labels ->
  labels <> [] ->
  exists pre l post k,
    labels = (pre ++ l :: post)%list /\
    id l = Some k /\
    get_majority_label labels = Ok l /\
    (forall l' k', In l' labels -> id l' = Some k' ->
       (count_id k' labels <= count_id k labels)%nat) /\
    (forall l' k', In l' pre -> id l' = Some k' ->
       (count_id k' labels < count_id k labels)%nat).
Proof.
  intros Hall Hne.
  destruct (votes_inv labels Hall) as (U & V & Hvotes & HC & HM & HE).
  unfold get_majority_label. rewrite Hvotes. cbn [mbind result_bind fst snd].
  assert (Hf : forall k, default 0 (dict_get V k) = Z.of_nat (count_id k labels)).
  { intros k. rewrite (HC k). now destruct (count_id k labels). }
  unfold max_key.
  destruct (map fst V) as [|k0 ks] eqn:Hkeys.
  { destruct labels as [|l0 labels]; [contradiction|].
    destruct (HM l0 (or_introl eq_refl)) as (k & _ & []). }
  cbn [mbind result_bind].
  destruct (max_from_first (fun k => default 0 (dict_get V k)) ks k0 [] [])
    as (t1 & t2 & Heq & Ht1 & Ht2); [intros k [] | intros k [] |].
  cbn [app] in Heq.
  set (best := max_from (fun k => default 0 (dict_get V k)) k0 ks) in *.
  destruct (HE t1 best t2 Heq) as (a & l & b & Hlabels & Hl & Hget & Hbefore).
  rewrite Hget. exists a, l, b, best.
  split; [assumption|]. split; [assumption|]. split; [reflexivity|]. split.
  - intros l' k' Hin Hk'.
    destruct (HM l' Hin) as (k'' & Hk'' & Hkey).
    assert (k'' = k') as -> by congruence.
    rewrite Heq in Hkey.
    apply in_app_or in Hkey as [Hkey|[<-|Hkey]].
    + specialize (Ht1 k' Hkey). rewrite !Hf in Ht1. lia.
    + lia.
    + specialize (Ht2 k' Hkey). rewrite !Hf in Ht2. lia.
  - intros l' k' Hin Hk'.
    destruct (Hbefore l' Hin) as (k'' & Hk'' & Hkey).
    assert (k'' = k') as -> by congruence.
    specialize (Ht1 k' Hkey). rewrite !Hf in Ht1. lia.
Qed.

Lemma votes_missing_id (labels : list label) :
  Exists (fun l => id l = None) labels ->
  forall st, votes st labels = Raise AttributeError.
Proof.
  induction labels as [|l labels IH]; intros Hex st; [inversion Hex|].
  cbn [votes]. unfold vote. destruct st as [U V].
  destruct (id l) as [k|] eqn:Hk; [|reflexivity].
  assert (Hrest : Exists (fun l => id l = None) labels)
    by (inversion Hex; [congruence | assumption]).
  destruct (match dict_get V k with Some _ => _ | None => _ end);
    cbn [mbind result_bind]; now apply IH.
Qed.

(** When a label of the list has no id, [get_majority_label] raises
    [AttributeError], whatever the other labels are. *)
Theorem get_majority_label_missing_id (labels : list label) :
  Exists (fun l => id l = None) labels ->
  get_majority_label labels = Raise AttributeError.
Proof.
  intros Hex. unfold get_majority_label.
  now rewrite (votes_missing_id labels Hex).
Qed.

Import LabelSamples.

Lemma get_majority_label_first_most_witness :
  get_majority_label [lab "a" 1; lab "b" 2; lab "c" 2; lab "d" 1; lab "e" 3]
  = Ok (lab "a" 1) /\
  exists pre l post,
    [lab "a" 1; lab "b" 2; lab "c" 2; lab "d" 1; lab "e" 3] = (pre ++ l :: post)%list /\
    get_majority_label [lab "a" 1; lab "b" 2; lab "c" 2; lab "d" 1; lab "e" 3] = Ok l.
Proof.
  split; [reflexivity|].
  destruct (get_majority_label_first_most
              [lab "a" 1; lab "b" 2; lab "c" 2; lab "d" 1; lab "e" 3])
    as (pre & l & post & k & Hsplit & _ & Hres & _).
  - repeat constructor; discriminate.
  - discriminate.
  - exists pre, l, post. split; assumption.
Defined.

Lemma get_majority_label_missing_id_witness :
  get_majority_label [lab "a" 1; lab_no_id "b"; lab "c" 1] = Raise AttributeError.
Proof.
  apply (get_majority_label_missing_id [lab "a" 1; lab_no_id "b"; lab "c" 1]).
  right. left. reflexivity.
Defined.

End LabelFacts.
